(** * spdy-go: frame accessors, header merge, frame channel, stream halves, Copy

    A shallow embedding of [spdy/util.go] and of the stream file that follows
    it in the sources: the frame accessors, [UpdateHeaders], [ChanFramer],
    [HalfStream], the two validators [StreamInput] / [StreamOutput], the
    [Stream] aggregate and [Copy].

    Conventions.
    - Unsigned integers ([uint8] flags, [uint32] stream ids and counters)
      are [N], with the wrap-around of the one addition written out
      ([uint32]); a status code is a [Z].
    - A Go [error] value is [option error]: [None] is [nil].
    - A pointer the callers of this package always pass non-nil is modelled
      by its pointee; a pointer that may be [nil] is an [option].
    - A call either returns, parks the goroutine on a channel operation, or
      panics: see [outcome].
    - [debug] only writes to the log and is left out. *)

From Stdlib Require Import ZArith NArith String Ascii.
From stdpp Require Import gmap strings list fin_maps.

Open Scope N_scope.

(** ** Go values *)

(** [io.EOF] and the values built by [errors.New]. *)
Inductive error : Type :=
| EOF
| errorString (msg : string).

(** How a call ends.  [Blocked]: the goroutine waits on a channel send or
    receive that cannot proceed; in a sequential run it waits for ever.
    [Panicked]: a run-time panic (send on or close of a closed channel,
    write to a nil map). *)
Inductive outcome (A : Type) : Type :=
| Done (a : A)
| Blocked
| Panicked.
Arguments Done {A} a.
Arguments Blocked {A}.
Arguments Panicked {A}.

#[global] Instance outcome_ret : MRet outcome := @Done.
#[global] Instance outcome_bind : MBind outcome := λ A B k o,
  match o with
  | Done a => k a
  | Blocked => Blocked
  | Panicked => Panicked
  end.

(** Left fold of a fallible step over a list: the body of a [for ... range]. *)
Fixpoint foldlM {A B : Type} (step : A → B → outcome A) (a : A) (l : list B) : outcome A :=
  match l with
  | [] => Done a
  | b :: l => a' ← step a b; foldlM step a' l
  end.

Definition uint32 (n : N) : N := n mod 2 ^ 32.
Arguments uint32 : simpl never.

(** ** Headers *)

(** [http.Header] is [map[string][]string]; [None] is the nil map (the zero
    value, what [new(http.Header)] points to). *)
Definition Header : Type := option (gmap string (list string)).

Definition upperByte (c : ascii) : ascii :=
  let n := nat_of_ascii c in
  if ((97 <=? n) && (n <=? 122))%nat then ascii_of_nat (n - 32) else c.

Definition lowerByte (c : ascii) : ascii :=
  let n := nat_of_ascii c in
  if ((65 <=? n) && (n <=? 90))%nat then ascii_of_nat (n + 32) else c.

(** [validHeaderFieldByte] of [net/textproto] (Go standard library): the
    bytes of an HTTP token, that is the digits, the letters and
    [! # $ % & ' * + - . ^ _ ` | ~]. *)
Definition validHeaderFieldByte (c : ascii) : bool :=
  let n := nat_of_ascii c in
  ((48 <=? n) && (n <=? 57) || (97 <=? n) && (n <=? 122) || (65 <=? n) && (n <=? 90)
   || List.existsb (Nat.eqb n) [33; 35; 36; 37; 38; 39; 42; 43; 45; 46; 94; 95; 96; 124; 126])%nat.

(** Every byte of the key is a token byte. *)
Fixpoint validHeaderField (s : string) : bool :=
  match s with
  | EmptyString => true
  | String c s => validHeaderFieldByte c && validHeaderField s
  end.

(** The rewriting loop of [textproto.CanonicalMIMEHeaderKey] (Go standard
    library, reached through [http.Header.Add]): the first letter and every
    letter after a hyphen are upper-cased, the other letters lower-cased.
    [upper] is the loop's flag. *)
Fixpoint canonicalMIMEHeaderKey (upper : bool) (s : string) : string :=
  match s with
  | EmptyString => EmptyString
  | String v s =>
      String (if upper then upperByte v else lowerByte v)
             (canonicalMIMEHeaderKey (Ascii.eqb v "-"%char) s)
  end.

(** [textproto.CanonicalMIMEHeaderKey]: a key that holds a byte that is no
    token byte (a space, a colon, a byte above 127) is returned unchanged;
    any other key goes through the rewriting loop. *)
Definition CanonicalMIMEHeaderKey (s : string) : string :=
  if validHeaderField s then canonicalMIMEHeaderKey true s else s.

(** [http.Header.Add]: [key = CanonicalMIMEHeaderKey(key);
    h[key] = append(h[key], value)].  Assigning into the nil map panics. *)
Definition Header_Add (h : Header) (key value : string) : outcome Header :=
  match h with
  | None => Panicked
  | Some m =>
      let key := CanonicalMIMEHeaderKey key in
      Done (Some (<[key := default [] (m !! key) ++ [value]]> m))
  end.

(** ** Frames *)

(** Modelled from the spec: the struct declarations of the frame variants and
    of [ControlFrameHeader] are in a file of the package that is not among
    the sources.  Each variant has the fields [util.go] and the stream file
    read or write: a stream id, the flags (Data carries its own, the others
    carry them in the embedded control-frame header), the header mapping of
    OpenStream / Reply / Headers, the status of Reset.  A [Frame] is a
    non-nil pointer to one of the nine structs. *)
Record ControlFrameHeader : Type := { Flags : N }.

Inductive Frame : Type :=
| DataFrame (StreamId : N) (Flags : N) (Data : list Byte.byte)
| SynStreamFrame (CFHeader : ControlFrameHeader) (StreamId : N) (Headers : Header)
| SynReplyFrame (CFHeader : ControlFrameHeader) (StreamId : N) (Headers : Header)
| HeadersFrame (CFHeader : ControlFrameHeader) (StreamId : N) (Headers : Header)
| RstStreamFrame (CFHeader : ControlFrameHeader) (StreamId : N) (Status : Z)
| NoopFrame (CFHeader : ControlFrameHeader)
| SettingsFrame (CFHeader : ControlFrameHeader)
| PingFrame (CFHeader : ControlFrameHeader)
| GoAwayFrame (CFHeader : ControlFrameHeader).

(** Modelled from the spec: the constants [ControlFlagFin], [DataFlagFin]
    and [ProtocolError] are declared with the frame types, outside the
    sources.  The fin flag is "a per-frame bit" of the flags field and the
    protocol-error status "a generic protocol-error code"; the values are
    those of the SPDY draft the package names (FLAG_FIN = 0x01,
    PROTOCOL_ERROR = 1). *)
Definition ControlFlagFin : N := 1.
Definition DataFlagFin : N := 1.
Definition ProtocolError : Z := 1%Z.

Definition GetStreamId (frame : Frame) : N :=
  match frame with
  | DataFrame StreamId _ _ => StreamId
  | SynStreamFrame _ StreamId _ => StreamId
  | HeadersFrame _ StreamId _ => StreamId
  | SynReplyFrame _ StreamId _ => StreamId
  | RstStreamFrame _ StreamId _ => StreamId
  | NoopFrame _ => 0
  | SettingsFrame _ => 0
  | PingFrame _ => 0
  | GoAwayFrame _ => 0
  end.

(** [GetHeaders] returns a [*http.Header]: [None] is the nil pointer,
    [Some h] the address of the frame's [Headers] field. *)
Definition GetHeaders (frame : Frame) : option Header :=
  match frame with
  | DataFrame _ _ _ => None
  | SynStreamFrame _ _ Headers => Some Headers
  | HeadersFrame _ _ Headers => Some Headers
  | SynReplyFrame _ _ Headers => Some Headers
  | RstStreamFrame _ _ _ => None
  | NoopFrame _ => None
  | SettingsFrame _ => None
  | PingFrame _ => None
  | GoAwayFrame _ => None
  end.

(** [flags & bit != 0]. *)
Definition flagSet (flags bit : N) : bool := negb (N.land flags bit =? 0).

Definition GetFinFlag (frame : Frame) : bool :=
  match frame with
  | DataFrame _ Flags _ => flagSet Flags DataFlagFin
  | SynStreamFrame CFHeader _ _ => flagSet (Flags CFHeader) ControlFlagFin
  | HeadersFrame CFHeader _ _ => flagSet (Flags CFHeader) ControlFlagFin
  | SynReplyFrame CFHeader _ _ => flagSet (Flags CFHeader) ControlFlagFin
  | RstStreamFrame CFHeader _ _ => flagSet (Flags CFHeader) ControlFlagFin
  | NoopFrame CFHeader => flagSet (Flags CFHeader) ControlFlagFin
  | SettingsFrame CFHeader => flagSet (Flags CFHeader) ControlFlagFin
  | PingFrame CFHeader => flagSet (Flags CFHeader) ControlFlagFin
  | GoAwayFrame CFHeader => flagSet (Flags CFHeader) ControlFlagFin
  end.

(** The type assertion of [frame] to a pointer to [RstStreamFrame]. *)
Definition isRst (frame : Frame) : bool :=
  match frame with
  | RstStreamFrame _ _ _ => true
  | _ => false
  end.

(** The four variants whose [GetStreamId] is the constant 0. *)
Definition sessionLevel (frame : Frame) : bool :=
  match frame with
  | NoopFrame _ | SettingsFrame _ | PingFrame _ | GoAwayFrame _ => true
  | _ => false
  end.

(** ** The buffered channel of a [ChanFramer] *)

(** [make(chan Frame, 4096)]: the frames buffered, oldest first, and whether
    [close] was called. *)
Record chan : Type := Chan { buf : list Frame; closed : bool }.

Definition chanCap : nat := 4096.

(** [ch <- frame]: panics on a closed channel, waits while the buffer is
    full. *)
Definition chan_send (frame : Frame) (c : chan) : outcome chan :=
  if closed c then Panicked
  else if (length (buf c) <? chanCap)%nat then Done (Chan (buf c ++ [frame]) false)
  else Blocked.

(** [frame, ok := <-ch]: buffered frames are delivered even after [close];
    an empty closed channel yields [(nil, false)], here [None]; an empty
    open channel makes the receiver wait. *)
Definition chan_recv (c : chan) : outcome (option Frame * chan) :=
  match buf c with
  | frame :: rest => Done (Some frame, Chan rest (closed c))
  | [] => if closed c then Done (None, c) else Blocked
  end.

(** [close(ch)]: panics when the channel is closed already. *)
Definition chan_close (c : chan) : outcome chan :=
  if closed c then Panicked else Done (Chan (buf c) true).

(** ** ChanFramer *)

Record ChanFramer : Type := { ch : chan; err : option error }.

Definition NewChanFramer : ChanFramer :=
  {| ch := Chan [] false; err := None |}.

Definition ChanFramer_WriteFrame (frame : Frame) (framer : ChanFramer)
  : outcome (ChanFramer * option error) :=
  match err framer with
  | Some e => Done (framer, Some e)
  | None =>
      c ← chan_send frame (ch framer);
      Done ({| ch := c; err := err framer |}, None)
  end.

(** The result is the pair [(frame, error)]; a nil frame is [None]. *)
Definition ChanFramer_ReadFrame (framer : ChanFramer)
  : outcome (ChanFramer * (option Frame * option error)) :=
  '(frame, c) ← chan_recv (ch framer);
  match frame with
  | None => Done ({| ch := c; err := err framer |}, (None, err framer))
  | Some frame => Done ({| ch := c; err := err framer |}, (Some frame, None))
  end.

(** [Error(err)]; the argument is a Go [error] and may be [nil]. *)
Definition ChanFramer_Error (e : option error) (framer : ChanFramer)
  : outcome ChanFramer :=
  match err framer with
  | Some _ => Done framer
  | None =>
      c ← chan_close (ch framer);
      Done {| ch := c; err := e |}
  end.

Definition ChanFramer_Close (framer : ChanFramer) : outcome ChanFramer :=
  ChanFramer_Error (Some EOF) framer.

Definition ChanFramer_Closed (framer : ChanFramer) : bool :=
  match err framer with
  | Some _ => true
  | None => false
  end.

(** ** Streams *)

Record HalfStream : Type := {
  framer : ChanFramer;    (* the embedded *ChanFramer *)
  Headers : Header;
  nFrames : N             (* uint32 *)
}.

(** A [Stream] as [NewStream] builds it: the [stream] field of both halves
    points back to the stream that holds them, so the methods of a half are
    functions of the whole stream and of the half they act on. *)
Record Stream : Type := {
  Id : N;                 (* uint32 *)
  Input : HalfStream;
  Output : HalfStream;
  local : bool
}.

Inductive half : Type := InputHalf | OutputHalf.

Definition getHalf (h : half) (s : Stream) : HalfStream :=
  match h with
  | InputHalf => Input s
  | OutputHalf => Output s
  end.

Definition setHalf (h : half) (x : HalfStream) (s : Stream) : Stream :=
  match h with
  | InputHalf => {| Id := Id s; Input := x; Output := Output s; local := local s |}
  | OutputHalf => {| Id := Id s; Input := Input s; Output := x; local := local s |}
  end.

Definition otherHalf (h : half) : half :=
  match h with
  | InputHalf => OutputHalf
  | OutputHalf => InputHalf
  end.

Definition NewHalfStream : HalfStream :=
  {| framer := NewChanFramer; Headers := Some ∅; nFrames := 0 |}.

Definition NewStream (id : N) (local : bool) : Stream :=
  {| Id := id; Input := NewHalfStream; Output := NewHalfStream; local := local |}.

(** The promoted [ChanFramer.Close] of a half. *)
Definition HalfStream_Close (h : half) (s : Stream) : outcome Stream :=
  let x := getHalf h s in
  fr ← ChanFramer_Close (framer x);
  Done (setHalf h {| framer := fr; Headers := Headers x; nFrames := nFrames x |} s).

(** The promoted [ChanFramer.Closed] of a half. *)
Definition HalfStream_Closed (h : half) (s : Stream) : bool :=
  ChanFramer_Closed (framer (getHalf h s)).

Definition Stream_Close (s : Stream) : outcome Stream :=
  s ← HalfStream_Close InputHalf s;
  HalfStream_Close OutputHalf s.

(** [Stream.ReadFrame]: the promoted [ChanFramer.ReadFrame] of the input. *)
Definition Stream_ReadFrame (s : Stream)
  : outcome (Stream * (option Frame * option error)) :=
  let x := Input s in
  '(fr, r) ← ChanFramer_ReadFrame (framer x);
  Done (setHalf InputHalf {| framer := fr; Headers := Headers x; nFrames := nFrames x |} s, r).

Section Streams.

(** The order in which a [for ... range] statement visits the entries of a
    map.  Go leaves it unspecified; every result below holds for every
    order. *)
Variable rangeOrder : gmap string (list string) → list (string * list string).

Definition rangeHeader (h : Header) : list (string * list string) :=
  match h with
  | None => []
  | Some m => rangeOrder m
  end.

Definition UpdateHeaders (headers newHeaders : Header) : outcome Header :=
  foldlM (λ headers '(key, values),
            foldlM (λ headers value, Header_Add headers key value) headers values)
         headers (rangeHeader newHeaders).

Definition HalfStream_WriteFrame (h : half) (frame : Frame) (s : Stream)
  : outcome (Stream * option error) :=
  let x := getHalf h s in
  '(fr, e) ← ChanFramer_WriteFrame frame (framer x);
  match e with
  | Some e => Done (s, Some e)
  | None =>
      let s := setHalf h {| framer := fr; Headers := Headers x;
                            nFrames := uint32 (nFrames x + 1) |} s in
      s ← (if GetFinFlag frame then HalfStream_Close h s else Done s);
      s ← match GetHeaders frame with
          | Some headers =>
              let x := getHalf h s in
              hd ← UpdateHeaders (Headers x) headers;
              Done (setHalf h {| framer := framer x; Headers := hd;
                                 nFrames := nFrames x |} s)
          | None => Done s
          end;
      s ← (if isRst frame then Stream_Close s else Done s);
      Done (s, None)
  end.

Definition StreamOutput_WriteFrame (frame : Frame) (s : Stream)
  : outcome (Stream * option error) :=
  if HalfStream_Closed OutputHalf s then
    Done (s, Some (errorString "Output closed"))
  else
    let n := nFrames (Output s) in
    match frame with
    | SynStreamFrame _ _ _ =>
        if (0 <? n) || negb (local s) then
          Done (s, Some (errorString "Won't send invalid SYN_STREAM frame"))
        else HalfStream_WriteFrame OutputHalf frame s
    | SynReplyFrame _ _ _ =>
        if (0 <? n) || local s then
          Done (s, Some (errorString "Won't send invalid SYN_REPLY frame"))
        else HalfStream_WriteFrame OutputHalf frame s
    | HeadersFrame _ _ _ | DataFrame _ _ _ =>
        if n =? 0 then
          Done (s, Some (errorString "First frame sent must be SYN_STREAM or SYN_REPLY"))
        else HalfStream_WriteFrame OutputHalf frame s
    | _ => Done (s, Some (errorString "Won't send invalid frame type"))
    end.

Definition Stream_WriteFrame (frame : Frame) (s : Stream)
  : outcome (Stream * option error) :=
  StreamOutput_WriteFrame frame s.

Definition Stream_Rst (status : Z) (s : Stream) : outcome (Stream * option error) :=
  StreamOutput_WriteFrame (RstStreamFrame {| Flags := 0 |} (Id s) status) s.

Definition Stream_ProtocolError (s : Stream) : outcome (Stream * option error) :=
  Stream_Rst ProtocolError s.

(** A call whose returned error the caller drops. *)
Definition ignoreError (o : outcome (Stream * option error)) : outcome Stream :=
  '(s, _) ← o; Done s.

Definition StreamInput_WriteFrame (frame : Frame) (s : Stream)
  : outcome (Stream * option error) :=
  if HalfStream_Closed InputHalf s then
    s ← (if negb (isRst frame) then ignoreError (Stream_Rst 9%Z s) else Done s);
    Done (s, None)
  else
    let n := nFrames (Input s) in
    let reject := s ← ignoreError (Stream_ProtocolError s); Done (s, None) in
    match frame with
    | SynStreamFrame _ _ _ =>
        if (0 <? n) || local s then reject
        else HalfStream_WriteFrame InputHalf frame s
    | SynReplyFrame _ _ _ =>
        if (0 <? n) || negb (local s) then reject
        else HalfStream_WriteFrame InputHalf frame s
    | HeadersFrame _ _ _ | DataFrame _ _ _ =>
        if n =? 0 then reject
        else HalfStream_WriteFrame InputHalf frame s
    | RstStreamFrame _ _ _ => HalfStream_WriteFrame InputHalf frame s
    | _ => reject
    end.

(** The flags [Reply], [Syn] and [WriteDataFrame] compute from [fin]: the
    zero value unless [fin]. *)
Definition finFlags (bit : N) (fin : bool) : N := if fin then bit else 0.

(** [headers] is a [*http.Header]; [None] is the nil pointer, replaced by
    [new(http.Header)], a pointer to the nil map. *)
Definition orNewHeader (headers : option Header) : Header :=
  match headers with
  | None => None
  | Some h => h
  end.

Definition Stream_Reply (headers : option Header) (fin : bool) (s : Stream)
  : outcome (Stream * option error) :=
  let headers := orNewHeader headers in
  let flags := finFlags ControlFlagFin fin in
  StreamOutput_WriteFrame (SynReplyFrame {| Flags := flags |} (Id s) headers) s.

Definition Stream_Syn (headers : option Header) (fin : bool) (s : Stream)
  : outcome (Stream * option error) :=
  let headers := orNewHeader headers in
  let flags := finFlags ControlFlagFin fin in
  StreamOutput_WriteFrame (SynStreamFrame {| Flags := flags |} (Id s) headers) s.


End Streams.

(** ** Copy *)

Section Copy.

(** [F] is the type of the frame values handed from the reader to the
    writer ([Copy] never looks inside one); [R] and [W] are the states of
    the objects behind the [FrameReader] and the [FrameWriter], taken to be
    two separate objects.  [ReadFrame] is [r.ReadFrame()], with result
    [(frame, err)]; [WriteFrame] is [w.WriteFrame(frame)]. *)
Context {F R W : Type}.
Variable ReadFrame : R → outcome (R * (F * option error)).
Variable WriteFrame : F → W → outcome (W * option error).

(** The [for] loop of [Copy], with a bound on the number of iterations:
    [None] when [fuel] iterations did not reach a [return].  [w] is [None]
    for the nil writer.  The result is the final writer, the final reader
    and the returned error. *)
Fixpoint Copy (fuel : nat) (w : option W) (r : R)
  : option (outcome (option W * R * option error)) :=
  match fuel with
  | O => None
  | S fuel =>
      match ReadFrame r with
      | Done (r, (frame, err)) =>
          match err with
          | Some EOF => Some (Done (w, r, None))
          | Some e => Some (Done (w, r, Some e))
          | None =>
              match w with
              | None => Copy fuel None r
              | Some w =>
                  match WriteFrame frame w with
                  | Done (w, Some e) => Some (Done (Some w, r, Some e))
                  | Done (w, None) => Copy fuel (Some w) r
                  | Blocked => Some Blocked
                  | Panicked => Some Panicked
                  end
              end
          end
      | Blocked => Some Blocked
      | Panicked => Some Panicked
      end
  end.

(** [reads r frames r']: [length frames] calls of [ReadFrame] from [r]
    return the frames of [frames] in order, each with a nil error, and
    leave the reader in [r']. *)
Inductive reads : R → list F → R → Prop :=
| reads_nil r : reads r [] r
| reads_cons r frame r1 frames r' :
    ReadFrame r = Done (r1, (frame, None)) →
    reads r1 frames r' →
    reads r (frame :: frames) r'.

(** [writes w frames w']: writing the frames of [frames] in order from [w]
    succeeds every time and leaves the writer in [w']. *)
Inductive writes : W → list F → W → Prop :=
| writes_nil w : writes w [] w
| writes_cons w frame w1 frames w' :
    WriteFrame frame w = Done (w1, None) →
    writes w1 frames w' →
    writes w (frame :: frames) w'.

(** What [Copy] returns for a terminal condition of the reader. *)
Definition copyResult (terminal : error) : option error :=
  match terminal with
  | EOF => None
  | e => Some e
  end.

End Copy.

(** A reader that delivers the frames of a list and then the terminal
    condition [terminal], for ever; [nilFrame] is the frame value returned
    with the terminal condition. *)
Definition scriptReadFrame {F : Type} (nilFrame : F) (terminal : error) (r : list F)
  : outcome (list F * (F * option error)) :=
  match r with
  | frame :: r => Done (r, (frame, None))
  | [] => Done ([], (nilFrame, Some terminal))
  end.

(** ** Runs of a ChanFramer *)

(** The frames of a list written one after the other; the result lists the
    returned errors. *)
Fixpoint writeFrames (frames : list Frame) (framer : ChanFramer)
  : outcome (ChanFramer * list (option error)) :=
  match frames with
  | [] => Done (framer, [])
  | frame :: frames =>
      '(framer, e) ← ChanFramer_WriteFrame frame framer;
      '(framer, es) ← writeFrames frames framer;
      Done (framer, e :: es)
  end.

(** [n] reads one after the other; the result lists what they returned. *)
Fixpoint readFrames (n : nat) (framer : ChanFramer)
  : outcome (ChanFramer * list (option Frame * option error)) :=
  match n with
  | O => Done (framer, [])
  | S n =>
      '(framer, r) ← ChanFramer_ReadFrame framer;
      '(framer, rs) ← readFrames n framer;
      Done (framer, r :: rs)
  end.

(** ** Invariant and vocabulary of the statements *)

(** The values a merge files under [key]: those of the visited entries
    whose key has the canonical form [key], in the order of the visit. *)
Fixpoint addedValues (key : string) (entries : list (string * list string)) : list string :=
  match entries with
  | [] => []
  | (k, values) :: entries =>
      (if decide (CanonicalMIMEHeaderKey k = key) then values else [])
      ++ addedValues key entries
  end.

(** The representation invariant of a half: the channel is closed exactly
    when an error is recorded, and the header map is allocated.
    [NewHalfStream] establishes it and every method keeps it, as long as
    [Error] is not called with a nil error. *)
Definition wfHalf (x : HalfStream) : Prop :=
  closed (ch (framer x)) = ChanFramer_Closed (framer x) ∧ is_Some (Headers x).

Definition wfStream (s : Stream) : Prop :=
  wfHalf (Input s) ∧ wfHalf (Output s).

(** The frames buffered in a half and not read yet. *)
Definition queue (h : half) (s : Stream) : list Frame :=
  buf (ch (framer (getHalf h s))).

(** The channel of the half can take one more frame without waiting. *)
Definition hasRoom (h : half) (s : Stream) : Prop :=
  (length (queue h s) < chanCap)%nat.

(** The call returned nil and the frame went into the half: it is the last
    of the half's queue and the half's counter moved by one. *)
Definition admitted (h : half) (frame : Frame) (s : Stream)
    (o : outcome (Stream * option error)) : Prop :=
  ∃ s', o = Done (s', None)
        ∧ queue h s' = queue h s ++ [frame]
        ∧ nFrames (getHalf h s') = uint32 (nFrames (getHalf h s) + 1).

(** The frame kinds the switch of [StreamOutput.WriteFrame] has a case for. *)
Definition sendable (frame : Frame) : bool :=
  match frame with
  | SynStreamFrame _ _ _ | SynReplyFrame _ _ _ | HeadersFrame _ _ _ | DataFrame _ _ _ => true
  | _ => false
  end.

(** OpenStream and Reply, the frames that open a direction. *)
Definition opening (frame : Frame) : bool :=
  match frame with
  | SynStreamFrame _ _ _ | SynReplyFrame _ _ _ => true
  | _ => false
  end.

(** The legality rules of an open half in the words of the specification,
    for a half that has counted [n] frames on a stream whose [local] flag is
    [loc]; the validators are compared with them below. *)
Definition receiveLegal (n : N) (loc : bool) (frame : Frame) : bool :=
  match frame with
  | SynStreamFrame _ _ _ => (n =? 0) && negb loc
  | SynReplyFrame _ _ _ => (n =? 0) && loc
  | HeadersFrame _ _ _ | DataFrame _ _ _ => 0 <? n
  | RstStreamFrame _ _ _ => true
  | _ => false
  end.

Definition sendLegal (n : N) (loc : bool) (frame : Frame) : bool :=
  match frame with
  | SynStreamFrame _ _ _ => (n =? 0) && loc
  | SynReplyFrame _ _ _ => (n =? 0) && negb loc
  | HeadersFrame _ _ _ | DataFrame _ _ _ => 0 <? n
  | _ => false
  end.

(** The receive validator, resp. the send validator, admits the frame in
    state [s]. *)
Definition receives (rangeOrder : gmap string (list string) → list (string * list string))
    (frame : Frame) (s : Stream) : Prop :=
  admitted InputHalf frame s (StreamInput_WriteFrame rangeOrder frame s).

Definition sends (rangeOrder : gmap string (list string) → list (string * list string))
    (frame : Frame) (s : Stream) : Prop :=
  admitted OutputHalf frame s (StreamOutput_WriteFrame rangeOrder frame s).

(** Frames handed one after the other to the receive validator, the
    returned errors dropped. *)
Definition feedInput (rangeOrder : gmap string (list string) → list (string * list string))
    (frames : list Frame) (s : Stream) : outcome Stream :=
  foldlM (λ s frame, ignoreError (StreamInput_WriteFrame rangeOrder frame s)) s frames.

(** ** Runs of a stream *)

(** What the owner of a stream and its peer can do to it: hand a frame to
    the receive validator or to the send validator, read a frame, close. *)
Inductive action : Type :=
| Receive (frame : Frame)
| Send (frame : Frame)
| Read
| CloseStream.

Definition perform (rangeOrder : gmap string (list string) → list (string * list string))
    (a : action) (s : Stream) : outcome Stream :=
  match a with
  | Receive frame => ignoreError (StreamInput_WriteFrame rangeOrder frame s)
  | Send frame => ignoreError (StreamOutput_WriteFrame rangeOrder frame s)
  | Read => '(s, _) ← Stream_ReadFrame s; Done s
  | CloseStream => Stream_Close s
  end.

(** The half an action offers a frame to, and the frame. *)
Definition offered (a : action) : option (half * Frame) :=
  match a with
  | Receive frame => Some (InputHalf, frame)
  | Send frame => Some (OutputHalf, frame)
  | _ => None
  end.

Definition half_eqb (h h' : half) : bool :=
  match h, h' with
  | InputHalf, InputHalf | OutputHalf, OutputHalf => true
  | _, _ => false
  end.

(** The counter of half [h] moved between [s] and [s']. *)
Definition counted (h : half) (s s' : Stream) : bool :=
  negb (nFrames (getHalf h s') =? nFrames (getHalf h s)).

(** The frames half [h] admitted during a run of actions, oldest first: the
    frames offered to [h] by the actions that moved its counter. *)
Fixpoint history (rangeOrder : gmap string (list string) → list (string * list string))
    (h : half) (actions : list action) (s : Stream) : outcome (Stream * list Frame) :=
  match actions with
  | [] => Done (s, [])
  | a :: actions =>
      s1 ← perform rangeOrder a s;
      '(s', frames) ← history rangeOrder h actions s1;
      Done (s', match offered a with
                | Some (h', frame) =>
                    if half_eqb h' h && counted h s s1 then frame :: frames else frames
                | None => frames
                end)
  end.

(** A stream whose receive half is open with nothing buffered, as after
    every received frame was read. *)
Definition idleStream (id : N) (headers : Header) (n : N) (output : HalfStream) (loc : bool)
  : Stream :=
  {| Id := id;
     Input := {| framer := NewChanFramer; Headers := headers; nFrames := n |};
     Output := output;
     local := loc |}.

(** Every frame of a list received and then read. *)
Definition relayed (frames : list Frame) : list action :=
  flat_map (λ frame, [Receive frame; Read]) frames.

(** Go's [len(h)] of a header map. *)
Definition headerLen (h : Header) : nat :=
  match h with
  | None => O
  | Some m => size m
  end.

(** The values filed under [key]; a missing key and the nil map read as the
    empty list, like Go's [h[key]]. *)
Definition headerGet (h : Header) (key : string) : list string :=
  match h with
  | None => []
  | Some m => default [] (m !! key)
  end.

(** ** The handler, the relay between two streams, and what a run delivers *)

(** [DummyHandler.ServeSPDY]: the loop that reads the input of the stream
    until a read returns an error, with a bound on the number of
    iterations ([None]: the bound was reached). *)
Fixpoint DummyHandler_ServeSPDY (fuel : nat) (s : Stream) : option (outcome Stream) :=
  match fuel with
  | O => None
  | S fuel =>
      match Stream_ReadFrame s with
      | Done (s, (_, Some _)) => Some (Done s)
      | Done (s, (_, None)) => DummyHandler_ServeSPDY fuel s
      | Blocked => Some Blocked
      | Panicked => Some Panicked
      end
  end.

(** [Stream.WriteFrame] for a frame value that may be the nil interface
    ([None]), as [Copy] hands over what the reader returned: on a nil frame
    the type switch of [StreamOutput.WriteFrame] takes its default branch. *)
Definition Stream_WriteFrame_value
    (rangeOrder : gmap string (list string) → list (string * list string))
    (frame : option Frame) (s : Stream) : outcome (Stream * option error) :=
  match frame with
  | Some frame => Stream_WriteFrame rangeOrder frame s
  | None =>
      if HalfStream_Closed OutputHalf s
      then Done (s, Some (errorString "Output closed"))
      else Done (s, Some (errorString "Won't send invalid frame type"))
  end.

(** [debugCopy(a, b, name)], the direction of a [Splice], for two
    streams: [Copy(a, b)] reads the input of [b] and writes to the output
    of [a]; the two [debug] lines are left out.  [a] is [None] for the nil
    writer. *)
Definition debugCopy
    (rangeOrder : gmap string (list string) → list (string * list string))
    (fuel : nat) (a : option Stream) (b : Stream)
  : option (outcome (option Stream * Stream * option error)) :=
  Copy Stream_ReadFrame (Stream_WriteFrame_value rangeOrder) fuel a b.

(** The frames the reads of a run returned, oldest first. *)
Fixpoint delivered (rangeOrder : gmap string (list string) → list (string * list string))
    (actions : list action) (s : Stream) : outcome (Stream * list Frame) :=
  match actions with
  | [] => Done (s, [])
  | a :: actions =>
      '(s1, got) ← match a with
                   | Read => '(s1, (frame, _)) ← Stream_ReadFrame s;
                             Done (s1, match frame with Some frame => [frame] | None => [] end)
                   | _ => s1 ← perform rangeOrder a s; Done (s1, [])
                   end;
      '(s', frames) ← delivered rangeOrder actions s1;
      Done (s', got ++ frames)
  end.

(** What the reads of a run took out of the queue of half [h]:
    [Stream.ReadFrame] reads the receive half, and nothing in a run reads
    the send half. *)
Definition readFrom (h : half) (got : list Frame) : list Frame :=
  match h with
  | InputHalf => got
  | OutputHalf => []
  end.

(** Neither queue holds more frames than the channel can buffer. *)
Definition bounded (s : Stream) : Prop :=
  (length (queue InputHalf s) ≤ chanCap)%nat ∧ (length (queue OutputHalf s) ≤ chanCap)%nat.

(** The rule that lets half [h] take a frame: the receive rule for the
    input, the send rule for the output. *)
Definition legalOn (h : half) (n : N) (loc : bool) (frame : Frame) : bool :=
  match h with
  | InputHalf => receiveLegal n loc frame
  | OutputHalf => sendLegal n loc frame
  end.

(** How one action of a run, from [s] to [s1], looks from half [h]: the
    half took the frame [frame], or it took nothing. *)
Definition takes (h : half) (frame : Frame) (s s1 : Stream) : Prop :=
  HalfStream_Closed h s = false
  ∧ legalOn h (nFrames (getHalf h s)) (local s) frame = true
  ∧ hasRoom h s
  ∧ queue h s1 = queue h s ++ [frame]
  ∧ nFrames (getHalf h s1) = uint32 (nFrames (getHalf h s) + 1)
  ∧ (GetFinFlag frame || isRst frame = true → HalfStream_Closed h s1 = true)
  ∧ (GetFinFlag frame || isRst frame = false → HalfStream_Closed h s1 = false).

Definition skips (h : half) (a : action) (s s1 : Stream) : Prop :=
  nFrames (getHalf h s1) = nFrames (getHalf h s)
  ∧ Headers (getHalf h s1) = Headers (getHalf h s)
  ∧ (HalfStream_Closed h s = true → HalfStream_Closed h s1 = true)
  ∧ (queue h s1 = queue h s
     ∨ (a = Read ∧ h = InputHalf ∧ ∃ frame, queue h s = frame :: queue h s1)).

(** * Properties *)

(** ** Frame accessors *)

Lemma flagSet_fin_bit (flags : N) : flagSet flags 1 = N.testbit flags 0.
Proof.
  unfold flagSet. rewrite N.bit0_odd.
  change 1 with (N.ones 1). rewrite N.land_ones. change (2 ^ 1) with 2.
  rewrite <- N.bit0_mod, N.bit0_odd.
  destruct (N.odd flags); reflexivity.
Qed.

(** C7, as the code has it.  For a session-level control frame (Noop,
    Settings, Ping, GoAway) with control-frame header [h]: [GetStreamId] is
    0 and [GetHeaders] is the nil pointer; [GetFinFlag] is computed from the
    header like for any other control frame: it is the fin bit (bit 0,
    mask 0x01) of the flags stored in [h], so it is false when the flags
    are 0 and true when that bit is set. *)
Theorem C7_session_level_accessors (mk : ControlFrameHeader → Frame) (h : ControlFrameHeader) :
  In mk [NoopFrame; SettingsFrame; PingFrame; GoAwayFrame] →
  sessionLevel (mk h) = true
  ∧ GetStreamId (mk h) = 0
  ∧ GetHeaders (mk h) = None
  ∧ GetFinFlag (mk h) = N.testbit (Flags h) 0
  ∧ (Flags h = 0 → GetFinFlag (mk h) = false).
Proof.
  intros Hmk.
  assert (Hfin : GetFinFlag (mk h) = N.testbit (Flags h) 0)
    by (simpl in Hmk; destruct Hmk as [<- | [<- | [<- | [<- | []]]]];
        apply flagSet_fin_bit).
  repeat split; try assumption;
    try (simpl in Hmk; destruct Hmk as [<- | [<- | [<- | [<- | []]]]]; reflexivity).
  intros H0. rewrite Hfin, H0. reflexivity.
Qed.

Lemma C7_session_level_accessors_witness :
  GetStreamId (PingFrame {| Flags := 0 |}) = 0
  ∧ GetHeaders (PingFrame {| Flags := 0 |}) = None
  ∧ GetFinFlag (PingFrame {| Flags := 0 |}) = false.
Proof.
  destruct (C7_session_level_accessors PingFrame {| Flags := 0 |})
    as (_ & Hid & Hhd & _ & Hfin).
  - simpl. auto.
  - split; [exact Hid | split; [exact Hhd | apply Hfin; reflexivity]].
Defined.

(** C7, as the spec words it, fails: a Settings frame whose header flags
    are 0x01 is a session-level frame and reports the fin flag. *)
Lemma C7_counterexample :
  sessionLevel (SettingsFrame {| Flags := 1 |}) = true
  ∧ GetFinFlag (SettingsFrame {| Flags := 1 |}) = true.
Proof. split; reflexivity. Qed.

(** ** ChanFramer *)

Lemma chan_send_room (frame : Frame) (c : chan) :
  closed c = false → (length (buf c) < chanCap)%nat →
  chan_send frame c = Done (Chan (buf c ++ [frame]) false).
Proof.
  intros Hc Hlen. unfold chan_send. rewrite Hc.
  destruct (Nat.ltb_spec (length (buf c)) chanCap) as [_ | Hge]; [reflexivity | lia].
Qed.

Lemma chan_send_full (frame : Frame) (c : chan) :
  closed c = false → (chanCap ≤ length (buf c))%nat →
  chan_send frame c = Blocked.
Proof.
  intros Hc Hlen. unfold chan_send. rewrite Hc.
  destruct (Nat.ltb_spec (length (buf c)) chanCap) as [Hlt | _]; [lia | reflexivity].
Qed.

(** A write on a framer with a recorded error returns that error and
    leaves the framer as it was. *)
Lemma ChanFramer_WriteFrame_closed (frame : Frame) (framer : ChanFramer) (e : error) :
  err framer = Some e →
  ChanFramer_WriteFrame frame framer = Done (framer, Some e).
Proof. intros He. unfold ChanFramer_WriteFrame. rewrite He. reflexivity. Qed.

Lemma ChanFramer_WriteFrame_room (frame : Frame) (framer : ChanFramer) :
  err framer = None → closed (ch framer) = false →
  (length (buf (ch framer)) < chanCap)%nat →
  ChanFramer_WriteFrame frame framer
  = Done ({| ch := Chan (buf (ch framer) ++ [frame]) false; err := None |}, None).
Proof.
  intros He Hc Hlen. unfold ChanFramer_WriteFrame.
  rewrite He, (chan_send_room _ _ Hc Hlen). reflexivity.
Qed.

(** A write never returns an error the framer had not recorded. *)
Lemma ChanFramer_WriteFrame_error (frame : Frame) (framer framer' : ChanFramer) (e : error) :
  ChanFramer_WriteFrame frame framer = Done (framer', Some e) →
  framer' = framer ∧ err framer = Some e.
Proof.
  unfold ChanFramer_WriteFrame. destruct (err framer) as [e0 |] eqn:He.
  - intros [= <- <-]. auto.
  - destruct (chan_send frame (ch framer)); simpl; discriminate.
Qed.

Lemma ChanFramer_WriteFrame_ok (frame : Frame) (framer framer' : ChanFramer) :
  ChanFramer_WriteFrame frame framer = Done (framer', None) →
  err framer = None ∧ closed (ch framer) = false
  ∧ framer' = {| ch := Chan (buf (ch framer) ++ [frame]) false; err := None |}.
Proof.
  unfold ChanFramer_WriteFrame, chan_send. destruct (err framer) as [e0 |] eqn:He.
  - discriminate.
  - destruct (closed (ch framer)); [discriminate |].
    destruct (length (buf (ch framer)) <? chanCap)%nat; simpl; [| discriminate].
    intros [= <-]. auto.
Qed.

(** [Error] and [Close] do nothing once an error is recorded. *)
Lemma ChanFramer_Error_recorded (x : option error) (framer : ChanFramer) (e : error) :
  err framer = Some e → ChanFramer_Error x framer = Done framer.
Proof. intros He. unfold ChanFramer_Error. rewrite He. reflexivity. Qed.

Lemma ChanFramer_Error_first (x : option error) (framer : ChanFramer) :
  err framer = None → closed (ch framer) = false →
  ChanFramer_Error x framer = Done {| ch := Chan (buf (ch framer)) true; err := x |}.
Proof.
  intros He Hc. unfold ChanFramer_Error, chan_close. rewrite He, Hc. reflexivity.
Qed.

(** [Close] on a framer that satisfies the invariant always returns, and the
    framer is closed afterwards, with its buffer untouched. *)
Lemma ChanFramer_Close_wf (framer : ChanFramer) :
  closed (ch framer) = ChanFramer_Closed framer →
  ∃ framer', ChanFramer_Close framer = Done framer'
             ∧ ChanFramer_Closed framer' = true
             ∧ closed (ch framer') = true
             ∧ buf (ch framer') = buf (ch framer)
             ∧ (ChanFramer_Closed framer = true → framer' = framer).
Proof.
  intros Hwf. unfold ChanFramer_Close, ChanFramer_Closed in *.
  destruct (err framer) as [e |] eqn:He.
  - exists framer. rewrite (ChanFramer_Error_recorded _ _ _ He), He. auto.
  - rewrite (ChanFramer_Error_first _ _ He Hwf). eexists. split; [reflexivity |].
    simpl. repeat split; try reflexivity. discriminate.
Qed.

(** ** Streams *)

Section StreamFacts.

Variable rangeOrder : gmap string (list string) → list (string * list string).

(** [Close] that returns leaves the framer closed and its buffer as it was. *)
Lemma ChanFramer_Close_Done (framer framer' : ChanFramer) :
  ChanFramer_Close framer = Done framer' →
  ChanFramer_Closed framer' = true
  ∧ buf (ch framer') = buf (ch framer)
  ∧ (ChanFramer_Closed framer = true → framer' = framer).
Proof.
  unfold ChanFramer_Close, ChanFramer_Error, ChanFramer_Closed, chan_close.
  destruct (err framer) as [e |] eqn:He.
  - intros [= <-]. rewrite He. auto.
  - destruct (closed (ch framer)); simpl; [discriminate |].
    intros [= <-]. simpl. repeat split. discriminate.
Qed.

Lemma HalfStream_Close_Done (h : half) (s s' : Stream) :
  HalfStream_Close h s = Done s' →
  HalfStream_Closed h s' = true
  ∧ queue h s' = queue h s
  ∧ nFrames (getHalf h s') = nFrames (getHalf h s)
  ∧ Headers (getHalf h s') = Headers (getHalf h s)
  ∧ getHalf (otherHalf h) s' = getHalf (otherHalf h) s
  ∧ Id s' = Id s ∧ local s' = local s.
Proof.
  unfold HalfStream_Close, HalfStream_Closed, queue.
  destruct (ChanFramer_Close (framer (getHalf h s))) as [fr | |] eqn:Hc; simpl; try discriminate.
  intros [= <-]. apply ChanFramer_Close_Done in Hc as (Hcl & Hbuf & _).
  destruct h; simpl; auto 10.
Qed.

(** What a call of [HalfStream.WriteFrame] that returns nil has done: the
    frame is queued and counted; the fin flag closed the half and left the
    other half alone; a Reset closed both halves. *)
Lemma HalfStream_WriteFrame_Done (h : half) (frame : Frame) (s s' : Stream) :
  HalfStream_WriteFrame rangeOrder h frame s = Done (s', None) →
  queue h s' = queue h s ++ [frame]
  ∧ nFrames (getHalf h s') = uint32 (nFrames (getHalf h s) + 1)
  ∧ (isRst frame = false → GetFinFlag frame = true →
       HalfStream_Closed h s' = true
       ∧ getHalf (otherHalf h) s' = getHalf (otherHalf h) s)
  ∧ (isRst frame = true →
       HalfStream_Closed InputHalf s' = true
       ∧ HalfStream_Closed OutputHalf s' = true)
  ∧ Id s' = Id s ∧ local s' = local s
  ∧ match GetHeaders frame with
    | Some newHeaders =>
        UpdateHeaders rangeOrder (Headers (getHalf h s)) newHeaders
        = Done (Headers (getHalf h s'))
    | None => Headers (getHalf h s') = Headers (getHalf h s)
    end
  ∧ nFrames (getHalf (otherHalf h) s') = nFrames (getHalf (otherHalf h) s).
Proof.
  unfold HalfStream_WriteFrame.
  destruct (ChanFramer_WriteFrame frame (framer (getHalf h s))) as [[fr [e |]] | |] eqn:Hw;
    simpl; try discriminate.
  apply ChanFramer_WriteFrame_ok in Hw as (Herr & Hcl & ->).
  set (s1 := setHalf h _ s).
  assert (H1 : queue h s1 = queue h s ++ [frame]
               ∧ nFrames (getHalf h s1) = uint32 (nFrames (getHalf h s) + 1)
               ∧ getHalf (otherHalf h) s1 = getHalf (otherHalf h) s
               ∧ Id s1 = Id s ∧ local s1 = local s
               ∧ Headers (getHalf h s1) = Headers (getHalf h s))
    by (subst s1; unfold queue; destruct h; simpl; auto 10).
  clearbody s1. destruct H1 as (Hq1 & Hn1 & Ho1 & Hi1 & Hl1 & Hh1).
  (* the fin flag *)
  destruct (if GetFinFlag frame then HalfStream_Close h s1 else Done s1)
    as [s2 | |] eqn:Hfin; simpl; try discriminate.
  assert (H2 : queue h s2 = queue h s1
               ∧ nFrames (getHalf h s2) = nFrames (getHalf h s1)
               ∧ getHalf (otherHalf h) s2 = getHalf (otherHalf h) s1
               ∧ (GetFinFlag frame = true → HalfStream_Closed h s2 = true)
               ∧ Id s2 = Id s1 ∧ local s2 = local s1
               ∧ Headers (getHalf h s2) = Headers (getHalf h s1)).
  { destruct (GetFinFlag frame).
    - apply HalfStream_Close_Done in Hfin as (? & ? & ? & ? & ? & ? & ?). auto 10.
    - injection Hfin as <-. repeat split. discriminate. }
  destruct H2 as (Hq2 & Hn2 & Ho2 & Hc2 & Hi2 & Hl2 & Hh2). clear Hfin.
  (* the headers *)
  match goal with |- (?o ≫= _) = _ → _ => destruct o as [s3 | |] eqn:Hhd end;
    simpl; try discriminate.
  assert (H3 : queue h s3 = queue h s2
               ∧ nFrames (getHalf h s3) = nFrames (getHalf h s2)
               ∧ getHalf (otherHalf h) s3 = getHalf (otherHalf h) s2
               ∧ HalfStream_Closed h s3 = HalfStream_Closed h s2
               ∧ Id s3 = Id s2 ∧ local s3 = local s2
               ∧ match GetHeaders frame with
                 | Some newHeaders =>
                     UpdateHeaders rangeOrder (Headers (getHalf h s2)) newHeaders
                     = Done (Headers (getHalf h s3))
                 | None => Headers (getHalf h s3) = Headers (getHalf h s2)
                 end).
  { destruct (GetHeaders frame) as [hd |].
    - destruct (UpdateHeaders rangeOrder (Headers (getHalf h s2)) hd); simpl in Hhd;
        try discriminate.
      injection Hhd as <-. unfold queue, HalfStream_Closed. destruct h; simpl; auto 10.
    - injection Hhd as <-. auto 10. }
  destruct H3 as (Hq3 & Hn3 & Ho3 & Hc3 & Hi3 & Hl3 & Hh3). clear Hhd.
  rewrite Hh2, Hh1 in Hh3.
  (* Reset *)
  destruct (if isRst frame then Stream_Close s3 else Done s3) as [s4 | |] eqn:Hrst;
    simpl; try discriminate.
  intros [= <-].
  destruct (isRst frame) eqn:Hr.
  - unfold Stream_Close in Hrst.
    destruct (HalfStream_Close InputHalf s3) as [s3' | |] eqn:Hci; simpl in Hrst;
      try discriminate.
    apply HalfStream_Close_Done in Hci as (Hci & Hqi & Hni & Hhi & Hoi & Hii & Hli).
    pose proof Hrst as Hco.
    apply HalfStream_Close_Done in Hco as (Hco & Hqo & Hno & Hho & Hoo & Hio & Hlo).
    simpl in Hoi, Hoo.
    assert (Hq4 : queue h s4 = queue h s3
                  ∧ nFrames (getHalf h s4) = nFrames (getHalf h s3)
                  ∧ Headers (getHalf h s4) = Headers (getHalf h s3)
                  ∧ nFrames (getHalf (otherHalf h) s4)
                    = nFrames (getHalf (otherHalf h) s3)).
    { destruct h; simpl in *; unfold queue in *; simpl in *.
      - rewrite Hoo, Hno, Hoi. auto.
      - rewrite Hqo, Hno, Hho, Hoi, Hoo. auto. }
    destruct Hq4 as (Hq4 & Hn4 & Hh4 & Ho4). rewrite Hh4.
    repeat split; try congruence.
    unfold HalfStream_Closed in *. simpl in *. rewrite Hoo. exact Hci.
  - injection Hrst as <-. repeat split; try congruence.
    rewrite Hc3. auto.
Qed.

(** *** The invariant is kept *)

Lemma NewStream_wf (id : N) (loc : bool) : wfStream (NewStream id loc).
Proof. repeat split; simpl; eauto. Qed.

Lemma foldlM_Header_Add (key : string) (values : list string) (m : gmap string (list string)) :
  ∃ m', foldlM (λ headers value, Header_Add headers key value) (Some m) values
        = Done (Some m').
Proof.
  revert m. induction values as [| value values IH]; intros m; simpl.
  - eauto.
  - apply IH.
Qed.

(** Merging into an allocated map never panics and yields an allocated
    map. *)
Lemma UpdateHeaders_Some (m : gmap string (list string)) (newHeaders : Header) :
  ∃ m', UpdateHeaders rangeOrder (Some m) newHeaders = Done (Some m').
Proof.
  unfold UpdateHeaders. generalize (rangeHeader rangeOrder newHeaders) as l.
  intros l. revert m. induction l as [| [key values] l IH]; intros m; simpl.
  - eauto.
  - destruct (foldlM_Header_Add key values m) as [m1 ->]. simpl. apply IH.
Qed.

Lemma setHalf_wf (h : half) (x : HalfStream) (s : Stream) :
  wfStream s → wfHalf x → wfStream (setHalf h x s).
Proof. intros [Hi Ho] Hx. destruct h; split; simpl; assumption. Qed.

Lemma getHalf_wf (h : half) (s : Stream) : wfStream s → wfHalf (getHalf h s).
Proof. intros [Hi Ho]. destruct h; assumption. Qed.

Lemma HalfStream_Close_wf (h : half) (s : Stream) :
  wfStream s → ∃ s', HalfStream_Close h s = Done s' ∧ wfStream s'.
Proof.
  intros Hwf. pose proof (getHalf_wf h s Hwf) as [Hch Hhd].
  unfold HalfStream_Close.
  destruct (ChanFramer_Close_wf _ Hch) as (fr & -> & Hcl & Hclosed & _ & _).
  simpl. eexists. split; [reflexivity |].
  apply setHalf_wf; [assumption |]. split; simpl; [congruence | assumption].
Qed.

Lemma Stream_Close_wf (s : Stream) :
  wfStream s → ∃ s', Stream_Close s = Done s' ∧ wfStream s'.
Proof.
  intros Hwf. unfold Stream_Close.
  destruct (HalfStream_Close_wf InputHalf s Hwf) as (s1 & -> & Hwf1). simpl.
  apply HalfStream_Close_wf. assumption.
Qed.

(** On an open half whose channel has room, [HalfStream.WriteFrame] returns
    nil, whatever the frame. *)
Lemma HalfStream_WriteFrame_open (h : half) (frame : Frame) (s : Stream) :
  wfStream s → HalfStream_Closed h s = false → hasRoom h s →
  ∃ s', HalfStream_WriteFrame rangeOrder h frame s = Done (s', None) ∧ wfStream s'.
Proof.
  intros Hwf Hopen Hroom. pose proof (getHalf_wf h s Hwf) as [Hch Hhd].
  unfold HalfStream_Closed in Hopen. rewrite Hopen in Hch.
  unfold HalfStream_WriteFrame.
  rewrite ChanFramer_WriteFrame_room;
    [| unfold ChanFramer_Closed in Hopen; destruct (err (framer (getHalf h s)));
       [discriminate | reflexivity] | assumption | assumption].
  simpl.
  set (s1 := setHalf h _ s).
  assert (Hwf1 : wfStream s1)
    by (apply setHalf_wf; [assumption | split; [reflexivity | assumption]]).
  clearbody s1.
  assert (H2 : ∃ s2, (if GetFinFlag frame then HalfStream_Close h s1 else Done s1) = Done s2
                     ∧ wfStream s2).
  { destruct (GetFinFlag frame); [apply HalfStream_Close_wf; assumption | eauto]. }
  destruct H2 as (s2 & -> & Hwf2). simpl.
  match goal with
  | |- ∃ s', (?o ≫= _) = _ ∧ _ => assert (H3 : ∃ s3, o = Done s3 ∧ wfStream s3)
  end.
  { destruct (GetHeaders frame) as [hd |]; [| eauto].
    pose proof (getHalf_wf h s2 Hwf2) as [Hch2 [m Hm]]. simpl. rewrite Hm.
    destruct (UpdateHeaders_Some m hd) as [m' ->]. simpl.
    eexists. split; [reflexivity |].
    apply setHalf_wf; [assumption | split; simpl; eauto]. }
  destruct H3 as (s3 & -> & Hwf3). simpl.
  assert (H4 : ∃ s4, (if isRst frame then Stream_Close s3 else Done s3) = Done s4
                     ∧ wfStream s4).
  { destruct (isRst frame); [apply Stream_Close_wf; assumption | eauto]. }
  destruct H4 as (s4 & -> & Hwf4). simpl. eauto.
Qed.

(** On an open half whose channel is full, it waits in the channel send. *)
Lemma HalfStream_WriteFrame_full (h : half) (frame : Frame) (s : Stream) :
  wfStream s → HalfStream_Closed h s = false → (chanCap ≤ length (queue h s))%nat →
  HalfStream_WriteFrame rangeOrder h frame s = Blocked.
Proof.
  intros Hwf Hopen Hfull. pose proof (getHalf_wf h s Hwf) as [Hch _].
  unfold HalfStream_Closed in Hopen. rewrite Hopen in Hch.
  unfold HalfStream_WriteFrame, ChanFramer_WriteFrame.
  unfold ChanFramer_Closed in Hopen.
  destruct (err (framer (getHalf h s))); [discriminate |].
  rewrite chan_send_full by assumption. reflexivity.
Qed.

(** On an open half it never returns an error. *)
Lemma HalfStream_WriteFrame_no_error (h : half) (frame : Frame) (s s' : Stream) (r : option error) :
  HalfStream_Closed h s = false →
  HalfStream_WriteFrame rangeOrder h frame s = Done (s', r) → r = None.
Proof.
  unfold HalfStream_Closed, ChanFramer_Closed, HalfStream_WriteFrame, ChanFramer_WriteFrame.
  destruct (err (framer (getHalf h s))); [discriminate |]. intros _.
  destruct (chan_send frame (ch (framer (getHalf h s)))); simpl; try discriminate.
  repeat match goal with
         | |- (?o ≫= _) = _ → _ => destruct o; simpl; try discriminate
         end.
  intros [= _ <-]. reflexivity.
Qed.

Lemma HalfStream_WriteFrame_admitted (h : half) (frame : Frame) (s : Stream) :
  wfStream s → HalfStream_Closed h s = false → hasRoom h s →
  admitted h frame s (HalfStream_WriteFrame rangeOrder h frame s).
Proof.
  intros Hwf Hopen Hroom.
  destruct (HalfStream_WriteFrame_open h frame s Hwf Hopen Hroom) as (s' & Hw & _).
  exists s'. split; [assumption |].
  apply HalfStream_WriteFrame_Done in Hw as (Hq & Hn & _). auto.
Qed.

(** An admission changes the stream: the counter of the half moved. *)
Lemma uint32_succ_ne (n : N) : uint32 (n + 1) ≠ n.
Proof.
  unfold uint32. intros H.
  assert (Hlt : n < 2 ^ 32) by (rewrite <- H; apply N.mod_lt; discriminate).
  destruct (N.eq_dec (n + 1) (2 ^ 32)) as [He | Hne].
  - rewrite He, N.Div0.mod_same in H. lia.
  - rewrite N.mod_small in H by lia. lia.
Qed.

Lemma admitted_not_unchanged (h : half) (frame : Frame) (s : Stream) (r : option error) :
  admitted h frame s (Done (s, r)) → False.
Proof.
  intros (s' & [= <- _] & _ & Hn). symmetry in Hn. exact (uint32_succ_ne _ Hn).
Qed.

(** *** The send validator *)

Lemma StreamOutput_WriteFrame_default (frame : Frame) (s : Stream) :
  sendable frame = false →
  ∃ e, StreamOutput_WriteFrame rangeOrder frame s = Done (s, Some e).
Proof.
  intros Hk. unfold StreamOutput_WriteFrame.
  destruct (HalfStream_Closed OutputHalf s); [eauto |].
  destruct frame; try discriminate; eauto.
Qed.

Lemma Stream_Rst_rejected (status : Z) (s : Stream) :
  ∃ e, Stream_Rst rangeOrder status s = Done (s, Some e).
Proof. apply StreamOutput_WriteFrame_default. reflexivity. Qed.

Lemma ignoreError_Rst (status : Z) (s : Stream) :
  ignoreError (Stream_Rst rangeOrder status s) = Done s.
Proof. destruct (Stream_Rst_rejected status s) as [e ->]. reflexivity. Qed.

(** C2.  In every stream state the send validator answers a frame that is
    not an OpenStream, Reply, Headers or Data frame (a Reset among them)
    with an error and leaves the stream as it was, so the frame is not
    queued; [Stream.Rst] and [Stream.ProtocolError] therefore return an
    error and leave the send half, its queue included, unchanged. *)
Theorem C2_send_rejects_other_frames (frame : Frame) (status : Z) (s : Stream) :
  sendable frame = false →
  (∃ e, StreamOutput_WriteFrame rangeOrder frame s = Done (s, Some e))
  ∧ sendable (RstStreamFrame {| Flags := 0 |} (Id s) status) = false
  ∧ (∃ e, Stream_Rst rangeOrder status s = Done (s, Some e))
  ∧ (∃ e, Stream_ProtocolError rangeOrder s = Done (s, Some e)).
Proof.
  intros Hk. split; [apply StreamOutput_WriteFrame_default; assumption |].
  split; [reflexivity |].
  split; apply Stream_Rst_rejected.
Qed.


Lemma N_pos_eqb (n : N) : (0 <? n) = negb (n =? 0).
Proof.
  destruct (N.eqb_spec n 0) as [-> | Hn]; [reflexivity |].
  apply N.ltb_lt. lia.
Qed.

(** On an open send half the validator follows the rules of the words:
    a legal frame goes to [HalfStream.WriteFrame], any other is answered
    with an error and changes nothing. *)
Lemma StreamOutput_WriteFrame_open (frame : Frame) (s : Stream) :
  HalfStream_Closed OutputHalf s = false →
  if sendLegal (nFrames (Output s)) (local s) frame
  then StreamOutput_WriteFrame rangeOrder frame s
       = HalfStream_WriteFrame rangeOrder OutputHalf frame s
  else ∃ e, StreamOutput_WriteFrame rangeOrder frame s = Done (s, Some e).
Proof.
  intros Hopen. unfold StreamOutput_WriteFrame. rewrite Hopen.
  destruct frame; simpl; rewrite ?N_pos_eqb;
    destruct (nFrames (Output s) =? 0), (local s); simpl; eauto.
Qed.

Lemma StreamOutput_WriteFrame_closed (frame : Frame) (s : Stream) :
  HalfStream_Closed OutputHalf s = true →
  ∃ e, StreamOutput_WriteFrame rangeOrder frame s = Done (s, Some e).
Proof. intros Hc. unfold StreamOutput_WriteFrame. rewrite Hc. eauto. Qed.

(** *** The receive validator *)

Lemma StreamInput_WriteFrame_closed (frame : Frame) (s : Stream) :
  HalfStream_Closed InputHalf s = true →
  StreamInput_WriteFrame rangeOrder frame s = Done (s, None).
Proof.
  intros Hc. unfold StreamInput_WriteFrame. rewrite Hc.
  destruct (negb (isRst frame)); [rewrite ignoreError_Rst |]; reflexivity.
Qed.

Lemma StreamInput_reject (s : Stream) :
  (s' ← ignoreError (Stream_ProtocolError rangeOrder s); Done (s', None))
  = Done (s, @None error).
Proof. unfold Stream_ProtocolError. rewrite ignoreError_Rst. reflexivity. Qed.

(** On an open receive half the validator follows the rules of the words:
    a legal frame goes to [HalfStream.WriteFrame], any other is dropped:
    nil is returned and the stream, its send queue included, is as before. *)
Lemma StreamInput_WriteFrame_open (frame : Frame) (s : Stream) :
  HalfStream_Closed InputHalf s = false →
  StreamInput_WriteFrame rangeOrder frame s
  = if receiveLegal (nFrames (Input s)) (local s) frame
    then HalfStream_WriteFrame rangeOrder InputHalf frame s
    else Done (s, None).
Proof.
  intros Hopen. unfold StreamInput_WriteFrame. rewrite Hopen, StreamInput_reject.
  destruct frame; simpl; rewrite ?N_pos_eqb;
    destruct (nFrames (Input s) =? 0), (local s); reflexivity.
Qed.

(** The receive validator never returns an error. *)
Lemma StreamInput_WriteFrame_nil (frame : Frame) (s s' : Stream) (r : option error) :
  StreamInput_WriteFrame rangeOrder frame s = Done (s', r) → r = None.
Proof.
  destruct (HalfStream_Closed InputHalf s) eqn:Hc.
  - rewrite StreamInput_WriteFrame_closed by assumption. intros [= _ <-]. reflexivity.
  - rewrite StreamInput_WriteFrame_open by assumption.
    destruct (receiveLegal _ _ _).
    + apply HalfStream_WriteFrame_no_error. assumption.
    + intros [= _ <-]. reflexivity.
Qed.

(** A frame the receive validator did not admit changed nothing: nil is
    returned and the whole stream is as before.  In particular the send
    queue holds no new frame: the Reset the validator asks for goes
    through [StreamOutput.WriteFrame], which refuses it. *)
Lemma StreamInput_WriteFrame_not_admitted (frame : Frame) (s s' : Stream) (r : option error) :
  StreamInput_WriteFrame rangeOrder frame s = Done (s', r) →
  ¬ admitted InputHalf frame s (Done (s', r)) →
  s' = s ∧ r = None.
Proof.
  destruct (HalfStream_Closed InputHalf s) eqn:Hc.
  - rewrite StreamInput_WriteFrame_closed by assumption. intros [= <- <-]. auto.
  - rewrite StreamInput_WriteFrame_open by assumption.
    destruct (receiveLegal _ _ _).
    + intros Hw Hna. exfalso. apply Hna.
      pose proof (HalfStream_WriteFrame_no_error _ _ _ _ _ Hc Hw) as ->.
      exists s'. split; [reflexivity |].
      apply HalfStream_WriteFrame_Done in Hw as (Hq & Hn & _). auto.
    + intros [= <- <-]. auto.
Qed.

(** C1, at the inputs where the code departs from it.  A Data frame that
    arrives first on a fresh stream is illegal; the validator returns nil
    and the stream is unchanged, with an empty send queue: no Reset with
    the protocol-error status was queued.  The same frame arriving on the
    stream after [Close] finds the receive half closed; again nil is
    returned, the stream is unchanged and the send queue is empty: no
    Reset with status 9 was queued. *)
Theorem C1_no_reset_is_queued (id : N) (loc : bool) (data : list Byte.byte) :
  StreamInput_WriteFrame rangeOrder (DataFrame id 0 data) (NewStream id loc)
  = Done (NewStream id loc, None)
  ∧ queue OutputHalf (NewStream id loc) = []
  ∧ ∃ sc, Stream_Close (NewStream id loc) = Done sc
          ∧ HalfStream_Closed InputHalf sc = true
          ∧ StreamInput_WriteFrame rangeOrder (DataFrame id 0 data) sc = Done (sc, None)
          ∧ queue OutputHalf sc = [].
Proof.
  split; [| split].
  - rewrite StreamInput_WriteFrame_open by reflexivity. reflexivity.
  - reflexivity.
  - eexists. split; [reflexivity |]. split; [reflexivity |].
    split; [| reflexivity].
    apply StreamInput_WriteFrame_closed. reflexivity.
Qed.

(** C4.  When [HalfStream.WriteFrame] returns nil on half [h], the frame
    is the last of that half's queue and the half's counter is one more
    (modulo 2^32) than before, whether or not the half closes; a frame
    other than Reset with the fin flag leaves [h] closed and the other half
    exactly as it was; a Reset leaves both halves of the stream closed. *)
Theorem C4_effect_of_admission (h : half) (frame : Frame) (s s' : Stream) :
  HalfStream_WriteFrame rangeOrder h frame s = Done (s', None) →
  queue h s' = queue h s ++ [frame]
  ∧ nFrames (getHalf h s') = uint32 (nFrames (getHalf h s) + 1)
  ∧ (isRst frame = false → GetFinFlag frame = true →
       HalfStream_Closed h s' = true
       ∧ getHalf (otherHalf h) s' = getHalf (otherHalf h) s)
  ∧ (isRst frame = true →
       HalfStream_Closed InputHalf s' = true
       ∧ HalfStream_Closed OutputHalf s' = true).
Proof.
  intros Hw. apply HalfStream_WriteFrame_Done in Hw as (Hq & Hn & Hfin & Hrst & _).
  auto.
Qed.

(** *** Which frames an open half takes *)

Lemma HalfStream_WriteFrame_local (h : half) (frame : Frame) (s s' : Stream) (r : option error) :
  HalfStream_WriteFrame rangeOrder h frame s = Done (s', r) → local s' = local s.
Proof.
  destruct r as [e |].
  - unfold HalfStream_WriteFrame.
    destruct (ChanFramer_WriteFrame frame (framer (getHalf h s))) as [[fr [e' |]] | |];
      simpl; try discriminate.
    + intros [= <- _]. reflexivity.
    + repeat match goal with
             | |- (?o ≫= _) = _ → _ => destruct o; simpl; try discriminate
             end.
  - intros Hw. apply HalfStream_WriteFrame_Done in Hw. tauto.
Qed.

Lemma receives_iff (frame : Frame) (s : Stream) :
  wfStream s → HalfStream_Closed InputHalf s = false → hasRoom InputHalf s →
  receives rangeOrder frame s ↔ receiveLegal (nFrames (Input s)) (local s) frame = true.
Proof.
  intros Hwf Hopen Hroom. unfold receives.
  rewrite StreamInput_WriteFrame_open by assumption.
  destruct (receiveLegal _ _ _); split; intros H.
  - reflexivity.
  - apply HalfStream_WriteFrame_admitted; assumption.
  - destruct (admitted_not_unchanged _ _ _ _ H).
  - discriminate.
Qed.

Lemma sends_iff (frame : Frame) (s : Stream) :
  wfStream s → HalfStream_Closed OutputHalf s = false → hasRoom OutputHalf s →
  sends rangeOrder frame s ↔ sendLegal (nFrames (Output s)) (local s) frame = true.
Proof.
  intros Hwf Hopen Hroom. unfold sends.
  pose proof (StreamOutput_WriteFrame_open frame s Hopen) as Hv.
  destruct (sendLegal _ _ _); split; intros H.
  - reflexivity.
  - rewrite Hv. apply HalfStream_WriteFrame_admitted; assumption.
  - destruct Hv as [e Hv]. rewrite Hv in H. destruct (admitted_not_unchanged _ _ _ _ H).
  - discriminate.
Qed.

Lemma first_and (n : N) (b : bool) : (n =? 0) && b = true ↔ n = 0 ∧ b = true.
Proof. rewrite andb_true_iff, N.eqb_eq. reflexivity. Qed.

Lemma first_and_not (n : N) (b : bool) : (n =? 0) && negb b = true ↔ n = 0 ∧ b = false.
Proof. rewrite first_and, negb_true_iff. reflexivity. Qed.

(** Once a half has taken an opening frame, the receive validator drops
    every further opening frame. *)
Lemma receive_one_opening (f g : Frame) (s s' : Stream) (r : option error) :
  opening f = true → opening g = true →
  StreamInput_WriteFrame rangeOrder f s = Done (s', r) →
  admitted InputHalf f s (Done (s', r)) →
  StreamInput_WriteFrame rangeOrder g s' = Done (s', None).
Proof.
  intros Hf Hg Hw Hadm.
  assert (Hn : nFrames (Input s') = 1).
  { destruct (HalfStream_Closed InputHalf s) eqn:Hc.
    - rewrite StreamInput_WriteFrame_closed in Hw by assumption.
      injection Hw as <- <-. destruct (admitted_not_unchanged _ _ _ _ Hadm).
    - rewrite StreamInput_WriteFrame_open in Hw by assumption.
      destruct (receiveLegal _ _ _) eqn:Hl.
      + destruct Hadm as (s2 & [= <-] & _ & Hn). simpl in Hn. rewrite Hn.
        assert (Hzero : nFrames (Input s) = 0)
          by (destruct f; try discriminate; simpl in Hl;
              apply andb_true_iff in Hl as [Hz _]; apply N.eqb_eq; exact Hz).
        rewrite Hzero. reflexivity.
      + injection Hw as <- <-. destruct (admitted_not_unchanged _ _ _ _ Hadm). }
  destruct (HalfStream_Closed InputHalf s') eqn:Hc'.
  - apply StreamInput_WriteFrame_closed. assumption.
  - rewrite StreamInput_WriteFrame_open, Hn by assumption.
    destruct g; try discriminate; reflexivity.
Qed.

(** The same on the send side, where the further opening frame is answered
    with an error. *)
Lemma send_one_opening (f g : Frame) (s s' : Stream) (r : option error) :
  opening f = true → opening g = true →
  StreamOutput_WriteFrame rangeOrder f s = Done (s', r) →
  admitted OutputHalf f s (Done (s', r)) →
  ∃ e, StreamOutput_WriteFrame rangeOrder g s' = Done (s', Some e).
Proof.
  intros Hf Hg Hw Hadm.
  assert (Hn : nFrames (Output s') = 1).
  { destruct (HalfStream_Closed OutputHalf s) eqn:Hc.
    - destruct (StreamOutput_WriteFrame_closed f s Hc) as [e He].
      rewrite He in Hw. injection Hw as <- <-.
      destruct (admitted_not_unchanged _ _ _ _ Hadm).
    - pose proof (StreamOutput_WriteFrame_open f s Hc) as Hv.
      destruct (sendLegal _ _ _) eqn:Hl.
      + destruct Hadm as (s2 & [= <-] & _ & Hn). simpl in Hn. rewrite Hn.
        assert (Hzero : nFrames (Output s) = 0)
          by (destruct f; try discriminate; simpl in Hl;
              apply andb_true_iff in Hl as [Hz _]; apply N.eqb_eq; exact Hz).
        rewrite Hzero. reflexivity.
      + destruct Hv as [e He]. rewrite He in Hw. injection Hw as <- <-.
        destruct (admitted_not_unchanged _ _ _ _ Hadm). }
  destruct (HalfStream_Closed OutputHalf s') eqn:Hc'.
  - apply StreamOutput_WriteFrame_closed. assumption.
  - pose proof (StreamOutput_WriteFrame_open g s' Hc') as Hv. rewrite Hn in Hv.
    destruct g; try discriminate; exact Hv.
Qed.

Lemma StreamInput_WriteFrame_local (frame : Frame) (s s' : Stream) (r : option error) :
  StreamInput_WriteFrame rangeOrder frame s = Done (s', r) → local s' = local s.
Proof.
  destruct (HalfStream_Closed InputHalf s) eqn:Hc.
  - rewrite StreamInput_WriteFrame_closed by assumption. intros [= <- _]. reflexivity.
  - rewrite StreamInput_WriteFrame_open by assumption.
    destruct (receiveLegal _ _ _).
    + apply HalfStream_WriteFrame_local.
    + intros [= <- _]. reflexivity.
Qed.

Lemma StreamOutput_WriteFrame_local (frame : Frame) (s s' : Stream) (r : option error) :
  StreamOutput_WriteFrame rangeOrder frame s = Done (s', r) → local s' = local s.
Proof.
  destruct (HalfStream_Closed OutputHalf s) eqn:Hc.
  - destruct (StreamOutput_WriteFrame_closed frame s Hc) as [e ->].
    intros [= <- _]. reflexivity.
  - pose proof (StreamOutput_WriteFrame_open frame s Hc) as Hv.
    destruct (sendLegal _ _ _).
    + rewrite Hv. apply HalfStream_WriteFrame_local.
    + destruct Hv as [e ->]. intros [= <- _]. reflexivity.
Qed.

(** *** What the caller of the receive validator sees *)

(** C9, as the code has it.  The receive validator never returns an
    error: whenever it returns, it returns nil.  On a stream that satisfies
    the invariant it returns (nil) for every frame when the receive queue
    has room, and for every frame it drops whatever the queue; the one way
    not to return is a legal frame offered to an open half whose queue
    holds 4096 frames: the call then waits in the channel send. *)
Theorem C9_receive_validator_never_fails (frame : Frame) (s : Stream) :
  (∀ s' r, StreamInput_WriteFrame rangeOrder frame s = Done (s', r) → r = None)
  ∧ (wfStream s → hasRoom InputHalf s →
       ∃ s', StreamInput_WriteFrame rangeOrder frame s = Done (s', None))
  ∧ (wfStream s →
     (∃ s', StreamInput_WriteFrame rangeOrder frame s = Done (s', None))
     ∨ (StreamInput_WriteFrame rangeOrder frame s = Blocked
        ∧ HalfStream_Closed InputHalf s = false
        ∧ receiveLegal (nFrames (Input s)) (local s) frame = true
        ∧ (chanCap ≤ length (queue InputHalf s))%nat)).
Proof.
  split; [| split].
  - intros s' r. apply StreamInput_WriteFrame_nil.
  - intros Hwf Hroom. destruct (HalfStream_Closed InputHalf s) eqn:Hc.
    + exists s. apply StreamInput_WriteFrame_closed. assumption.
    + rewrite StreamInput_WriteFrame_open by assumption.
      destruct (receiveLegal _ _ _); [| eauto].
      destruct (HalfStream_WriteFrame_open InputHalf frame s Hwf Hc Hroom) as (s' & Hw & _).
      eauto.
  - intros Hwf. destruct (HalfStream_Closed InputHalf s) eqn:Hc.
    + left. exists s. apply StreamInput_WriteFrame_closed. assumption.
    + rewrite StreamInput_WriteFrame_open by assumption.
      destruct (receiveLegal _ _ _); [| left; eauto].
      destruct (Nat.lt_ge_cases (length (queue InputHalf s)) chanCap) as [Hroom | Hfull].
      * destruct (HalfStream_WriteFrame_open InputHalf frame s Hwf Hc Hroom) as (s' & Hw & _).
        left. eauto.
      * right. rewrite HalfStream_WriteFrame_full by assumption. auto.
Qed.

(** *** Syn and Reply without headers *)

Lemma UpdateHeaders_nil (headers : Header) :
  UpdateHeaders rangeOrder headers None = Done headers.
Proof. reflexivity. Qed.

Lemma flagSet_finFlags (fin : bool) : flagSet (finFlags ControlFlagFin fin) ControlFlagFin = fin.
Proof. destruct fin; reflexivity. Qed.

(** A write of the send validator on a stream that satisfies the invariant
    does not panic, and returns when the send queue has room. *)
Lemma StreamOutput_WriteFrame_total (frame : Frame) (s : Stream) :
  wfStream s →
  StreamOutput_WriteFrame rangeOrder frame s ≠ Panicked
  ∧ (hasRoom OutputHalf s →
       ∃ s' r, StreamOutput_WriteFrame rangeOrder frame s = Done (s', r)).
Proof.
  intros Hwf. destruct (HalfStream_Closed OutputHalf s) eqn:Hc.
  - destruct (StreamOutput_WriteFrame_closed frame s Hc) as [e ->].
    split; [discriminate | eauto].
  - pose proof (StreamOutput_WriteFrame_open frame s Hc) as Hv.
    destruct (sendLegal _ _ _).
    + rewrite Hv. split.
      * destruct (Nat.lt_ge_cases (length (queue OutputHalf s)) chanCap) as [Hroom | Hfull].
        -- destruct (HalfStream_WriteFrame_open OutputHalf frame s Hwf Hc Hroom)
             as (s' & -> & _).
           discriminate.
        -- rewrite HalfStream_WriteFrame_full by assumption. discriminate.
      * intros Hroom.
        destruct (HalfStream_WriteFrame_open OutputHalf frame s Hwf Hc Hroom) as (s' & -> & _).
        eauto.
    + destruct Hv as [e ->]. split; [discriminate | eauto].
Qed.

(** What an admitted frame with the nil header map leaves behind: the
    frame at the end of the send queue, the accumulated headers of the half
    as they were. *)
Lemma StreamOutput_WriteFrame_nil_headers (frame : Frame) (s s' : Stream) :
  GetHeaders frame = Some None →
  StreamOutput_WriteFrame rangeOrder frame s = Done (s', None) →
  queue OutputHalf s' = queue OutputHalf s ++ [frame]
  ∧ Headers (Output s') = Headers (Output s).
Proof.
  intros Hhd Hw.
  destruct (HalfStream_Closed OutputHalf s) eqn:Hc.
  - destruct (StreamOutput_WriteFrame_closed frame s Hc) as [e He].
    rewrite He in Hw. discriminate.
  - pose proof (StreamOutput_WriteFrame_open frame s Hc) as Hv.
    destruct (sendLegal _ _ _).
    + rewrite Hv in Hw.
      apply HalfStream_WriteFrame_Done in Hw as (Hq & _ & _ & _ & _ & _ & Hh & _).
      rewrite Hhd, UpdateHeaders_nil in Hh. injection Hh as Hh. auto.
    + destruct Hv as [e He]. rewrite He in Hw. discriminate.
Qed.

(** C10.  [Syn] and [Reply] called with nil headers hand the send
    validator an OpenStream, resp. a Reply, frame of the stream's id whose
    header map is the nil map, of length 0, with the fin flag as asked.  On
    a stream that satisfies the invariant the call does not panic and
    returns when the send queue has room; when it returns nil the frame is
    the last of the send queue and the accumulated headers of the send
    half are unchanged. *)
Theorem C10_nil_headers (fin : bool) (s : Stream) :
  wfStream s →
  let syn := SynStreamFrame {| Flags := finFlags ControlFlagFin fin |} (Id s) None in
  let reply := SynReplyFrame {| Flags := finFlags ControlFlagFin fin |} (Id s) None in
  Stream_Syn rangeOrder None fin s = StreamOutput_WriteFrame rangeOrder syn s
  ∧ Stream_Reply rangeOrder None fin s = StreamOutput_WriteFrame rangeOrder reply s
  ∧ GetHeaders syn = Some None ∧ GetHeaders reply = Some None
  ∧ headerLen None = 0%nat
  ∧ GetFinFlag syn = fin ∧ GetFinFlag reply = fin
  ∧ Stream_Syn rangeOrder None fin s ≠ Panicked
  ∧ Stream_Reply rangeOrder None fin s ≠ Panicked
  ∧ (hasRoom OutputHalf s →
       (∃ s' r, Stream_Syn rangeOrder None fin s = Done (s', r))
       ∧ (∃ s' r, Stream_Reply rangeOrder None fin s = Done (s', r)))
  ∧ (∀ s', Stream_Syn rangeOrder None fin s = Done (s', None) →
       queue OutputHalf s' = queue OutputHalf s ++ [syn]
       ∧ Headers (Output s') = Headers (Output s))
  ∧ (∀ s', Stream_Reply rangeOrder None fin s = Done (s', None) →
       queue OutputHalf s' = queue OutputHalf s ++ [reply]
       ∧ Headers (Output s') = Headers (Output s)).
Proof.
  intros Hwf syn reply.
  pose proof (StreamOutput_WriteFrame_total syn s Hwf) as [Hps Hrs].
  pose proof (StreamOutput_WriteFrame_total reply s Hwf) as [Hpr Hrr].
  repeat split; try reflexivity; try apply flagSet_finFlags; try assumption.
  - apply Hrs. assumption.
  - apply Hrr. assumption.
  - apply (StreamOutput_WriteFrame_nil_headers syn s s'); [reflexivity | assumption].
  - apply (StreamOutput_WriteFrame_nil_headers syn s s'); [reflexivity | assumption].
  - apply (StreamOutput_WriteFrame_nil_headers reply s s'); [reflexivity | assumption].
  - apply (StreamOutput_WriteFrame_nil_headers reply s s'); [reflexivity | assumption].
Qed.

(** *** Header merge *)

Lemma headerGet_Add (h h' : Header) (k value key : string) :
  Header_Add h k value = Done h' →
  headerGet h' key
  = headerGet h key ++ (if decide (CanonicalMIMEHeaderKey k = key) then [value] else []).
Proof.
  destruct h as [m |]; simpl; [| discriminate].
  intros [= <-]. simpl. destruct (decide (CanonicalMIMEHeaderKey k = key)) as [<- | Hne].
  - rewrite lookup_insert_eq. reflexivity.
  - rewrite lookup_insert_ne by assumption. rewrite app_nil_r. reflexivity.
Qed.

Lemma headerGet_Add_values (k : string) (values : list string) (h h' : Header) (key : string) :
  foldlM (λ headers value, Header_Add headers k value) h values = Done h' →
  headerGet h' key
  = headerGet h key ++ (if decide (CanonicalMIMEHeaderKey k = key) then values else []).
Proof.
  revert h. induction values as [| value values IH]; intros h; simpl.
  - intros [= <-]. destruct (decide _); rewrite app_nil_r; reflexivity.
  - destruct (Header_Add h k value) as [h1 | |] eqn:Hadd; simpl; try discriminate.
    intros Hrest. rewrite (IH _ Hrest), (headerGet_Add _ _ _ _ key Hadd).
    destruct (decide _); rewrite <- app_assoc; reflexivity.
Qed.

(** A merge that returns has appended, under every key, the values filed
    under it, and touched nothing else. *)
Lemma UpdateHeaders_get (headers newHeaders hd : Header) (key : string) :
  UpdateHeaders rangeOrder headers newHeaders = Done hd →
  headerGet hd key
  = headerGet headers key ++ addedValues key (rangeHeader rangeOrder newHeaders).
Proof.
  unfold UpdateHeaders. generalize (rangeHeader rangeOrder newHeaders) as entries.
  intros entries. revert headers.
  induction entries as [| [k values] entries IH]; intros headers; simpl.
  - intros [= <-]. rewrite app_nil_r. reflexivity.
  - destruct (foldlM _ headers values) as [h1 | |] eqn:Hvals; simpl; try discriminate.
    intros Hrest. rewrite (IH _ Hrest), (headerGet_Add_values _ _ _ _ key Hvals).
    rewrite <- app_assoc. reflexivity.
Qed.

(** When no two visited keys share a canonical form, the values filed
    under the canonical form of a visited key are the values of that key,
    and nothing is filed under a key that is no canonical form of a visited
    key. *)
Lemma addedValues_unique (entries : list (string * list string)) (key : string) :
  NoDup ((λ e, CanonicalMIMEHeaderKey e.1) <$> entries) →
  (∀ k values, (k, values) ∈ entries → CanonicalMIMEHeaderKey k = key →
     addedValues key entries = values)
  ∧ ((∀ k values, (k, values) ∈ entries → CanonicalMIMEHeaderKey k ≠ key) →
     addedValues key entries = []).
Proof.
  induction entries as [| [k0 vs0] entries IH]; simpl.
  - intros _. split; [intros k values Hin; inversion Hin | reflexivity].
  - intros Hnd. apply NoDup_cons in Hnd as [Hnotin Hnd].
    destruct (IH Hnd) as [IH1 IH2]. split.
    + intros k values Hin Hk. apply elem_of_cons in Hin as [[= -> ->] | Hin].
      * rewrite decide_True by assumption.
        rewrite IH2; [apply app_nil_r |].
        intros k' vs' Hin' Hk'. apply Hnotin.
        apply list_elem_of_fmap. exists (k', vs'). simpl. split; [congruence | assumption].
      * rewrite decide_False.
        -- simpl. apply (IH1 k); assumption.
        -- intros Hk0. apply Hnotin.
           apply list_elem_of_fmap. exists (k, values). simpl. split; [congruence | assumption].
    + intros Hnone. rewrite decide_False by (apply (Hnone k0 vs0); left).
      simpl. apply IH2. intros k values Hin. apply (Hnone k values). right. assumption.
Qed.

Lemma rangeOrder_NoDup (m : gmap string (list string)) :
  rangeOrder m ≡ₚ map_to_list m →
  (∀ k1 k2, is_Some (m !! k1) → is_Some (m !! k2) →
     CanonicalMIMEHeaderKey k1 = CanonicalMIMEHeaderKey k2 → k1 = k2) →
  NoDup ((λ e, CanonicalMIMEHeaderKey e.1) <$> rangeOrder m).
Proof.
  intros Hperm Hinj. rewrite Hperm.
  apply NoDup_fmap_2_strong.
  - intros [k1 v1] [k2 v2] H1 H2 Hc. simpl in Hc.
    apply elem_of_map_to_list in H1, H2.
    assert (k1 = k2) as -> by (apply Hinj; eauto).
    congruence.
  - apply NoDup_map_to_list.
Qed.

(** C6, as the code has it.  For every iteration order that is an order of
    the map's entries: merging into an allocated map returns an allocated
    map; under every key the values present before the merge are kept, in
    place, and the values filed under that key are appended after them, in
    the order they were visited; a value of the new mapping is filed under
    the canonical form of its key ([http.Header.Add]).  When the keys of
    the new mapping have pairwise different canonical forms, the key
    [CanonicalMIMEHeaderKey k] gains exactly the values of [k], and every
    other key keeps exactly its values.  [HalfStream.WriteFrame] merges the
    headers of every frame it admits that carries some.  The canonical
    form of a key made of token bytes only is the key with its first letter
    and every letter after a hyphen upper-cased and its other letters
    lower-cased; a key that holds any other byte is its own canonical form.
    Merging [{"a":["1"]}] and then [{"a":["2"],"b":["3"]}] into the empty
    map yields [{"A":["1","2"],"B":["3"]}]; merging [{"a b":["1"]}] into
    the empty map yields [{"a b":["1"]}]. *)
Theorem C6_header_merge_is_additive :
  (∀ m, rangeOrder m ≡ₚ map_to_list m) →
  (∀ m newHeaders, ∃ m', UpdateHeaders rangeOrder (Some m) newHeaders = Done (Some m'))
  ∧ (∀ headers newHeaders hd key,
       UpdateHeaders rangeOrder headers newHeaders = Done hd →
       headerGet hd key
       = headerGet headers key ++ addedValues key (rangeHeader rangeOrder newHeaders))
  ∧ (∀ headers (new : gmap string (list string)) hd,
       UpdateHeaders rangeOrder headers (Some new) = Done hd →
       (∀ k1 k2, is_Some (new !! k1) → is_Some (new !! k2) →
          CanonicalMIMEHeaderKey k1 = CanonicalMIMEHeaderKey k2 → k1 = k2) →
       (∀ k values, new !! k = Some values →
          headerGet hd (CanonicalMIMEHeaderKey k)
          = headerGet headers (CanonicalMIMEHeaderKey k) ++ values)
       ∧ (∀ key, (∀ k, is_Some (new !! k) → CanonicalMIMEHeaderKey k ≠ key) →
            headerGet hd key = headerGet headers key))
  ∧ (∀ h frame s s' newHeaders,
       HalfStream_WriteFrame rangeOrder h frame s = Done (s', None) →
       GetHeaders frame = Some newHeaders →
       UpdateHeaders rangeOrder (Headers (getHalf h s)) newHeaders
       = Done (Headers (getHalf h s')))
  ∧ (∀ k, validHeaderField k = true →
       CanonicalMIMEHeaderKey k = canonicalMIMEHeaderKey true k)
  ∧ (∀ k, validHeaderField k = false → CanonicalMIMEHeaderKey k = k)
  ∧ (h1 ← UpdateHeaders rangeOrder (Some ∅) (Some {["a" := ["1"]]});
     UpdateHeaders rangeOrder h1 (Some (<["a" := ["2"]]> {["b" := ["3"]]})))
     = Done (Some (<["A" := ["1"; "2"]]> {["B" := ["3"]]}))
  ∧ UpdateHeaders rangeOrder (Some ∅) (Some {["a b" := ["1"]]})
    = Done (Some {["a b" := ["1"]]}).
Proof.
  intros Hperm. split; [| split; [| split; [| split; [| split; [| split; [| split]]]]]].
  - apply UpdateHeaders_Some.
  - intros headers newHeaders hd key. apply UpdateHeaders_get.
  - intros headers new hd Hu Hinj.
    pose proof (rangeOrder_NoDup new (Hperm new) Hinj) as Hnd. split.
    + intros k values Hk. rewrite (UpdateHeaders_get _ _ _ _ Hu). f_equal.
      apply (proj1 (addedValues_unique _ _ Hnd) k); [| reflexivity].
      simpl. rewrite (Hperm new). apply elem_of_map_to_list. assumption.
    + intros key Hnone. rewrite (UpdateHeaders_get _ _ _ _ Hu).
      rewrite (proj2 (addedValues_unique _ _ Hnd)); [apply app_nil_r |].
      intros k values Hin. apply Hnone. simpl in Hin. rewrite (Hperm new) in Hin.
      apply elem_of_map_to_list in Hin. eauto.
  - intros h frame s s' newHeaders Hw Hhd.
    apply HalfStream_WriteFrame_Done in Hw as (_ & _ & _ & _ & _ & _ & Hh & _).
    rewrite Hhd in Hh. exact Hh.
  - intros k Hk. unfold CanonicalMIMEHeaderKey. rewrite Hk. reflexivity.
  - intros k Hk. unfold CanonicalMIMEHeaderKey. rewrite Hk. reflexivity.
  - pose proof (Hperm {["a" := ["1"]]}) as H1.
    rewrite map_to_list_singleton in H1. apply Permutation_singleton_r in H1.
    pose proof (Hperm (<["a" := ["2"]]> {["b" := ["3"]]})) as H2.
    assert (Hl : map_to_list (<["a" := ["2"]]> ({["b" := ["3"]]} : gmap string (list string)))
                 = [("a", ["2"]); ("b", ["3"])]) by (vm_compute; reflexivity).
    rewrite Hl in H2. symmetry in H2. apply Permutation_length_2_inv in H2.
    unfold UpdateHeaders, rangeHeader. rewrite H1.
    destruct H2 as [-> | ->]; vm_compute; reflexivity.
  - pose proof (Hperm {["a b" := ["1"]]}) as H1.
    rewrite map_to_list_singleton in H1. apply Permutation_singleton_r in H1.
    unfold UpdateHeaders, rangeHeader. rewrite H1. vm_compute; reflexivity.
Qed.

(** *** Runs: where an opening frame can stand *)

Lemma Stream_ReadFrame_counters (h : half) (s s' : Stream) (r : option Frame * option error) :
  Stream_ReadFrame s = Done (s', r) → nFrames (getHalf h s') = nFrames (getHalf h s).
Proof.
  unfold Stream_ReadFrame.
  destruct (ChanFramer_ReadFrame (framer (Input s))) as [[fr r'] | |]; simpl; try discriminate.
  intros [= <- _]. destruct h; reflexivity.
Qed.

Lemma Stream_Close_counters (h : half) (s s' : Stream) :
  Stream_Close s = Done s' → nFrames (getHalf h s') = nFrames (getHalf h s).
Proof.
  unfold Stream_Close.
  destruct (HalfStream_Close InputHalf s) as [s1 | |] eqn:Hi; simpl; try discriminate.
  intros Ho.
  apply HalfStream_Close_Done in Hi as (_ & _ & Hni & _ & Hoi & _).
  apply HalfStream_Close_Done in Ho as (_ & _ & Hno & _ & Hoo & _).
  simpl in *. destruct h; simpl; congruence.
Qed.

(** One action either leaves the counter of [h] alone, or offers [h] a
    frame that moves it by one; an opening frame moves it only from 0. *)
Lemma perform_counter (h : half) (a : action) (s s1 : Stream) :
  perform rangeOrder a s = Done s1 →
  nFrames (getHalf h s1) = nFrames (getHalf h s)
  ∨ ∃ frame, offered a = Some (h, frame)
             ∧ nFrames (getHalf h s1) = uint32 (nFrames (getHalf h s) + 1)
             ∧ (opening frame = true → nFrames (getHalf h s) = 0).
Proof.
  destruct a as [frame | frame | |]; simpl.
  - destruct (StreamInput_WriteFrame rangeOrder frame s) as [[s' r] | |] eqn:Hw;
      simpl; try discriminate.
    intros [= <-].
    destruct (HalfStream_Closed InputHalf s) eqn:Hc.
    + rewrite StreamInput_WriteFrame_closed in Hw by assumption.
      injection Hw as <- <-. left. reflexivity.
    + rewrite StreamInput_WriteFrame_open in Hw by assumption.
      destruct (receiveLegal _ _ _) eqn:Hl; [| injection Hw as <- <-; left; reflexivity].
      pose proof (HalfStream_WriteFrame_no_error _ _ _ _ _ Hc Hw) as ->.
      apply HalfStream_WriteFrame_Done in Hw as (_ & Hn & _ & _ & _ & _ & _ & Ho).
      destruct h; [right | left; exact Ho].
      exists frame. split; [reflexivity |]. split; [exact Hn |].
      intros Hop. destruct frame; try discriminate; simpl in Hl;
        apply andb_true_iff in Hl as [Hz _]; apply N.eqb_eq; exact Hz.
  - destruct (StreamOutput_WriteFrame rangeOrder frame s) as [[s' r] | |] eqn:Hw;
      simpl; try discriminate.
    intros [= <-].
    destruct (HalfStream_Closed OutputHalf s) eqn:Hc.
    + destruct (StreamOutput_WriteFrame_closed frame s Hc) as [e He].
      rewrite He in Hw. injection Hw as <- <-. left. reflexivity.
    + pose proof (StreamOutput_WriteFrame_open frame s Hc) as Hv.
      destruct (sendLegal _ _ _) eqn:Hl;
        [| destruct Hv as [e He]; rewrite He in Hw; injection Hw as <- <-; left; reflexivity].
      rewrite Hv in Hw.
      pose proof (HalfStream_WriteFrame_no_error _ _ _ _ _ Hc Hw) as ->.
      apply HalfStream_WriteFrame_Done in Hw as (_ & Hn & _ & _ & _ & _ & _ & Ho).
      destruct h; [left; exact Ho | right].
      exists frame. split; [reflexivity |]. split; [exact Hn |].
      intros Hop. destruct frame; try discriminate; simpl in Hl;
        apply andb_true_iff in Hl as [Hz _]; apply N.eqb_eq; exact Hz.
  - destruct (Stream_ReadFrame s) as [[s' r] | |] eqn:Hr; simpl; try discriminate.
    intros [= <-]. left. apply (Stream_ReadFrame_counters h _ _ _ Hr).
  - intros Hc. left. apply Stream_Close_counters. assumption.
Qed.

Lemma half_eqb_refl (h : half) : half_eqb h h = true.
Proof. destruct h; reflexivity. Qed.

Lemma uint32_succ (c : N) : uint32 (uint32 c + 1) = uint32 (c + 1).
Proof. unfold uint32. apply N.Div0.add_mod_idemp_l. Qed.

(** In a run that starts with the counter of [h] at [c] modulo 2^32, an
    opening frame is the [i]-th frame [h] admits only when [c + i] is a
    multiple of 2^32. *)
Lemma history_opening (h : half) (actions : list action) :
  ∀ (s s' : Stream) (c : N) (frames : list Frame),
    nFrames (getHalf h s) = uint32 c →
    history rangeOrder h actions s = Done (s', frames) →
    ∀ (i : nat) (frame : Frame),
      frames !! i = Some frame → opening frame = true → uint32 (c + N.of_nat i) = 0.
Proof.
  induction actions as [| a actions IH]; intros s s' c frames Hc; simpl.
  - intros [= _ <-] i frame Hi. rewrite lookup_nil in Hi. discriminate.
  - destruct (perform rangeOrder a s) as [s1 | |] eqn:Hp; simpl; try discriminate.
    destruct (history rangeOrder h actions s1) as [[s2 frames1] | |] eqn:Hh;
      simpl; try discriminate.
    intros [= <- <-] i frame Hi Hop.
    destruct (perform_counter h a s s1 Hp) as [Hsame | (f0 & Hoff & Hn & Hfirst)].
    + assert (Hcnt : counted h s s1 = false)
        by (unfold counted; rewrite Hsame, N.eqb_refl; reflexivity).
      assert (Hi' : frames1 !! i = Some frame)
        by (destruct (offered a) as [[h' f] |];
            [rewrite Hcnt, andb_false_r in Hi |]; exact Hi).
      apply (IH s1 s2 c frames1 ltac:(congruence) Hh i frame Hi' Hop).
    + assert (Hcnt : counted h s s1 = true).
      { unfold counted. rewrite Hn. apply negb_true_iff, N.eqb_neq, uint32_succ_ne. }
      rewrite Hoff, half_eqb_refl, Hcnt in Hi. simpl in Hi.
      destruct i as [| i].
      * injection Hi as ->. rewrite N.add_0_r, <- Hc. apply Hfirst. assumption.
      * simpl in Hi.
        replace (c + N.of_nat (S i)) with ((c + 1) + N.of_nat i) by lia.
        assert (Hc1 : nFrames (getHalf h s1) = uint32 (c + 1))
          by (rewrite Hn, Hc; apply uint32_succ).
        apply (IH s1 s2 (c + 1) frames1 Hc1 Hh i frame Hi Hop).
Qed.

Lemma perform_local (a : action) (s s1 : Stream) :
  perform rangeOrder a s = Done s1 → local s1 = local s.
Proof.
  destruct a as [frame | frame | |]; simpl.
  - destruct (StreamInput_WriteFrame rangeOrder frame s) as [[s' r] | |] eqn:Hw;
      simpl; try discriminate.
    intros [= <-]. apply (StreamInput_WriteFrame_local _ _ _ _ Hw).
  - destruct (StreamOutput_WriteFrame rangeOrder frame s) as [[s' r] | |] eqn:Hw;
      simpl; try discriminate.
    intros [= <-]. apply (StreamOutput_WriteFrame_local _ _ _ _ Hw).
  - unfold Stream_ReadFrame.
    destruct (ChanFramer_ReadFrame (framer (Input s))) as [[fr r] | |]; simpl;
      try discriminate.
    intros [= <-]. reflexivity.
  - unfold Stream_Close.
    destruct (HalfStream_Close InputHalf s) as [s' | |] eqn:Hi; simpl; try discriminate.
    intros Ho.
    apply HalfStream_Close_Done in Hi as (_ & _ & _ & _ & _ & _ & Hli).
    apply HalfStream_Close_Done in Ho as (_ & _ & _ & _ & _ & _ & Hlo).
    congruence.
Qed.

(** No run changes the [local] flag. *)
Lemma history_local (h : half) (actions : list action) :
  ∀ (s s' : Stream) (frames : list Frame),
    history rangeOrder h actions s = Done (s', frames) → local s' = local s.
Proof.
  induction actions as [| a actions IH]; intros s s' frames; simpl.
  - intros [= <- _]. reflexivity.
  - destruct (perform rangeOrder a s) as [s1 | |] eqn:Hp; simpl; try discriminate.
    destruct (history rangeOrder h actions s1) as [[s2 frames1] | |] eqn:Hh;
      simpl; try discriminate.
    intros [= <- _]. rewrite (IH _ _ _ Hh). apply (perform_local _ _ _ Hp).
Qed.

(** The counter of the receive half moves exactly when the frame is
    admitted. *)
Lemma counted_admitted (frame : Frame) (s s1 : Stream) (r : option error) :
  StreamInput_WriteFrame rangeOrder frame s = Done (s1, r) →
  counted InputHalf s s1 = true ↔ admitted InputHalf frame s (Done (s1, r)).
Proof.
  intros Hw. split.
  - intros Hcnt. destruct (HalfStream_Closed InputHalf s) eqn:Hc.
    + rewrite StreamInput_WriteFrame_closed in Hw by assumption. injection Hw as <- <-.
      unfold counted in Hcnt. rewrite N.eqb_refl in Hcnt. discriminate.
    + rewrite StreamInput_WriteFrame_open in Hw by assumption.
      destruct (receiveLegal _ _ _).
      * pose proof (HalfStream_WriteFrame_no_error _ _ _ _ _ Hc Hw) as ->.
        exists s1. split; [reflexivity |].
        apply HalfStream_WriteFrame_Done in Hw as (Hq & Hn & _). auto.
      * injection Hw as <- <-.
        unfold counted in Hcnt. rewrite N.eqb_refl in Hcnt. discriminate.
  - intros (s2 & [= <- _] & _ & Hn). unfold counted. simpl in *. rewrite Hn.
    apply negb_true_iff, N.eqb_neq, uint32_succ_ne.
Qed.

(** *** A run past the range of the counter *)

(** A Data frame received by an idle stream that has counted some frame,
    and read at once. *)
Lemma relay_data_one (id : N) (data : list Byte.byte) (sid : N) (hd : Header) (n : N)
    (out : HalfStream) (loc : bool) (rest : list action) :
  n ≠ 0 →
  history rangeOrder InputHalf (Receive (DataFrame id 0 data) :: Read :: rest)
    (idleStream sid hd n out loc)
  = '(s', frames) ← history rangeOrder InputHalf rest
                      (idleStream sid hd (uint32 (n + 1)) out loc);
    Done (s', DataFrame id 0 data :: frames).
Proof.
  intros Hn.
  assert (Hcnt : negb (uint32 (n + 1) =? n) = true)
    by apply negb_true_iff, N.eqb_neq, uint32_succ_ne.
  cbn [history perform]. rewrite StreamInput_WriteFrame_open by reflexivity.
  cbn [idleStream nFrames Input local receiveLegal].
  rewrite N_pos_eqb. destruct (N.eqb_spec n 0) as [| _]; [contradiction |].
  cbn. change (flagSet 0 DataFlagFin) with false. cbn. unfold counted. cbn. rewrite Hcnt.
  destruct (history rangeOrder InputHalf rest _) as [[s' frames] | |]; reflexivity.
Qed.

(** An OpenStream received by an idle stream of the peer whose counter is
    0, and read at once. *)
Lemma relay_syn_one (id : N) (sid : N) (hd : Header) (out : HalfStream) (rest : list action) :
  history rangeOrder InputHalf (Receive (SynStreamFrame {| Flags := 0 |} id None) :: Read :: rest)
    (idleStream sid hd 0 out false)
  = '(s', frames) ← history rangeOrder InputHalf rest (idleStream sid hd 1 out false);
    Done (s', SynStreamFrame {| Flags := 0 |} id None :: frames).
Proof.
  cbn [history perform]. rewrite StreamInput_WriteFrame_open by reflexivity.
  cbn. change (flagSet 0 ControlFlagFin) with false. cbn.
  destruct (history rangeOrder InputHalf rest _) as [[s' frames] | |]; reflexivity.
Qed.

Lemma relay_data_many (id : N) (data : list Byte.byte) (sid : N) (hd : Header)
    (out : HalfStream) (loc : bool) (rest : list action) (k : nat) :
  ∀ n, n ≠ 0 → n < 2 ^ 32 → n + N.of_nat k ≤ 2 ^ 32 →
    history rangeOrder InputHalf (relayed (repeat (DataFrame id 0 data) k) ++ rest)
      (idleStream sid hd n out loc)
    = '(s', frames) ← history rangeOrder InputHalf rest
                        (idleStream sid hd (uint32 (n + N.of_nat k)) out loc);
      Done (s', repeat (DataFrame id 0 data) k ++ frames).
Proof.
  induction k as [| k IH]; intros n Hn Hlt Hle.
  - cbn [repeat relayed flat_map app]. rewrite N.add_0_r.
    replace (uint32 n) with n by (unfold uint32; symmetry; apply N.mod_small; lia).
    destruct (history rangeOrder InputHalf rest _) as [[s' frames] | |]; reflexivity.
  - cbn [repeat relayed flat_map app]. fold (relayed (repeat (DataFrame id 0 data) k)).
    rewrite relay_data_one by assumption.
    destruct k as [| k'].
    + cbn [repeat relayed flat_map app].
      replace (n + N.of_nat 1) with (n + 1) by lia.
      destruct (history rangeOrder InputHalf rest _) as [[s' frames] | |]; reflexivity.
    + assert (Hsmall : uint32 (n + 1) = n + 1) by (unfold uint32; apply N.mod_small; lia).
      rewrite Hsmall, IH by lia.
      replace (n + 1 + N.of_nat (S k')) with (n + N.of_nat (S (S k'))) by lia.
      destruct (history rangeOrder InputHalf rest _) as [[s' frames] | |]; reflexivity.
Qed.

(** After an OpenStream and 2^32 - 1 Data frames the counter of the receive
    half is 0 again, and a second OpenStream is admitted. *)
Lemma wrap_admits_second_opening (sid id : N) (data : list Byte.byte) (k : nat) :
  N.of_nat k = 4294967295 →
  history rangeOrder InputHalf
    (relayed (SynStreamFrame {| Flags := 0 |} id None
              :: repeat (DataFrame id 0 data) k ++ [SynStreamFrame {| Flags := 0 |} id None]))
    (NewStream sid false)
  = Done (idleStream sid (Some ∅) 1 NewHalfStream false,
          SynStreamFrame {| Flags := 0 |} id None
          :: repeat (DataFrame id 0 data) k ++ [SynStreamFrame {| Flags := 0 |} id None]).
Proof.
  intros Hk. unfold relayed. cbn [flat_map app]. rewrite flat_map_app.
  fold (relayed (repeat (DataFrame id 0 data) k)).
  change (NewStream sid false) with (idleStream sid (Some ∅) 0 NewHalfStream false).
  rewrite relay_syn_one, relay_data_many by (rewrite ?Hk; first [discriminate | reflexivity]).
  replace (uint32 (1 + N.of_nat k)) with 0 by (rewrite Hk; reflexivity).
  cbn [flat_map app]. rewrite relay_syn_one. reflexivity.
Qed.

(** *** Every run keeps the invariant *)

Lemma HalfStream_WriteFrame_wf (h : half) (frame : Frame) (s s' : Stream) (r : option error) :
  wfStream s → HalfStream_Closed h s = false →
  HalfStream_WriteFrame rangeOrder h frame s = Done (s', r) → wfStream s'.
Proof.
  intros Hwf Hopen Hw.
  destruct (Nat.lt_ge_cases (length (queue h s)) chanCap) as [Hroom | Hfull].
  - destruct (HalfStream_WriteFrame_open h frame s Hwf Hopen Hroom) as (s2 & Hw2 & Hwf2).
    rewrite Hw2 in Hw. injection Hw as <- _. exact Hwf2.
  - rewrite HalfStream_WriteFrame_full in Hw by assumption. discriminate.
Qed.

Lemma Stream_ReadFrame_wf (s s' : Stream) (r : option Frame * option error) :
  wfStream s → Stream_ReadFrame s = Done (s', r) → wfStream s'.
Proof.
  intros [[Hch Hhd] Ho]. unfold Stream_ReadFrame, ChanFramer_ReadFrame, chan_recv.
  destruct (buf (ch (framer (Input s)))) as [| frame rest]; simpl.
  - destruct (closed (ch (framer (Input s)))) eqn:Hc; simpl; [| discriminate].
    intros [= <- _]. split; [split |]; simpl; [rewrite Hc | |]; assumption.
  - intros [= <- _]. split; [split |]; simpl; assumption.
Qed.

Lemma perform_wf (a : action) (s s1 : Stream) :
  wfStream s → perform rangeOrder a s = Done s1 → wfStream s1.
Proof.
  intros Hwf. destruct a as [frame | frame | |]; simpl.
  - destruct (StreamInput_WriteFrame rangeOrder frame s) as [[s' r] | |] eqn:Hw;
      simpl; try discriminate.
    intros [= <-]. destruct (HalfStream_Closed InputHalf s) eqn:Hc.
    + rewrite StreamInput_WriteFrame_closed in Hw by assumption.
      injection Hw as <- _. exact Hwf.
    + rewrite StreamInput_WriteFrame_open in Hw by assumption.
      destruct (receiveLegal _ _ _).
      * apply (HalfStream_WriteFrame_wf _ _ _ _ _ Hwf Hc Hw).
      * injection Hw as <- _. exact Hwf.
  - destruct (StreamOutput_WriteFrame rangeOrder frame s) as [[s' r] | |] eqn:Hw;
      simpl; try discriminate.
    intros [= <-]. destruct (HalfStream_Closed OutputHalf s) eqn:Hc.
    + destruct (StreamOutput_WriteFrame_closed frame s Hc) as [e He].
      rewrite He in Hw. injection Hw as <- _. exact Hwf.
    + pose proof (StreamOutput_WriteFrame_open frame s Hc) as Hv.
      destruct (sendLegal _ _ _).
      * rewrite Hv in Hw. apply (HalfStream_WriteFrame_wf _ _ _ _ _ Hwf Hc Hw).
      * destruct Hv as [e He]. rewrite He in Hw. injection Hw as <- _. exact Hwf.
  - destruct (Stream_ReadFrame s) as [[s' r] | |] eqn:Hr; simpl; try discriminate.
    intros [= <-]. apply (Stream_ReadFrame_wf _ _ _ Hwf Hr).
  - intros Hc. destruct (Stream_Close_wf s Hwf) as (s' & Hc' & Hwf').
    rewrite Hc' in Hc. injection Hc as <-. exact Hwf'.
Qed.

(** The state a run from a new stream ends in satisfies the invariant:
    the statements below that assume it cover every state the methods of
    the package lead to. *)
Lemma history_wf (h : half) (actions : list action) :
  ∀ (s s' : Stream) (frames : list Frame),
    wfStream s → history rangeOrder h actions s = Done (s', frames) → wfStream s'.
Proof.
  induction actions as [| a actions IH]; intros s s' frames Hwf; simpl.
  - intros [= <- _]. exact Hwf.
  - destruct (perform rangeOrder a s) as [s1 | |] eqn:Hp; simpl; try discriminate.
    destruct (history rangeOrder h actions s1) as [[s2 frames1] | |] eqn:Hh;
      simpl; try discriminate.
    intros [= <- _]. apply (IH s1 s2 frames1); [| assumption].
    apply (perform_wf _ _ _ Hwf Hp).
Qed.

(** The rules of the two validators, state by state, and what they give
    for a run.  On a stream that satisfies the invariant, for an open half
    whose channel has room, with [n] the half's counter: the receive
    validator admits an OpenStream iff [n = 0] and the stream is
    not local, a Reply iff [n = 0] and the stream is local, a Headers or a
    Data frame iff [0 < n], and a Reset always; the send validator admits
    an OpenStream iff [n = 0] and the stream is local, a Reply iff [n = 0]
    and the stream is not local, a Headers or a Data frame iff [0 < n].
    Room or not, an open half refuses at once what these rules exclude and
    hands [HalfStream.WriteFrame] what they allow.  In every run from a
    new stream, the frames a half admits hold an opening frame only at the
    positions that are multiples of 2^32, the counter being a [uint32]: at
    most one among the first 2^32 frames the half admits; and the run
    leaves the [local] flag as [NewStream] set it and ends in a state that
    satisfies the invariant. *)
Lemma legal_frames_by_state (s : Stream) :
  (wfStream s → HalfStream_Closed InputHalf s = false → hasRoom InputHalf s →
     (∀ cf id hd, receives rangeOrder (SynStreamFrame cf id hd) s
                  ↔ nFrames (Input s) = 0 ∧ local s = false)
     ∧ (∀ cf id hd, receives rangeOrder (SynReplyFrame cf id hd) s
                    ↔ nFrames (Input s) = 0 ∧ local s = true)
     ∧ (∀ cf id hd, receives rangeOrder (HeadersFrame cf id hd) s ↔ 0 < nFrames (Input s))
     ∧ (∀ id fl data, receives rangeOrder (DataFrame id fl data) s ↔ 0 < nFrames (Input s))
     ∧ (∀ cf id status, receives rangeOrder (RstStreamFrame cf id status) s))
  ∧ (wfStream s → HalfStream_Closed OutputHalf s = false → hasRoom OutputHalf s →
     (∀ cf id hd, sends rangeOrder (SynStreamFrame cf id hd) s
                  ↔ nFrames (Output s) = 0 ∧ local s = true)
     ∧ (∀ cf id hd, sends rangeOrder (SynReplyFrame cf id hd) s
                    ↔ nFrames (Output s) = 0 ∧ local s = false)
     ∧ (∀ cf id hd, sends rangeOrder (HeadersFrame cf id hd) s ↔ 0 < nFrames (Output s))
     ∧ (∀ id fl data, sends rangeOrder (DataFrame id fl data) s ↔ 0 < nFrames (Output s)))
  ∧ (HalfStream_Closed InputHalf s = false →
     ∀ frame, StreamInput_WriteFrame rangeOrder frame s
              = if receiveLegal (nFrames (Input s)) (local s) frame
                then HalfStream_WriteFrame rangeOrder InputHalf frame s
                else Done (s, None))
  ∧ (HalfStream_Closed OutputHalf s = false →
     ∀ frame, if sendLegal (nFrames (Output s)) (local s) frame
              then StreamOutput_WriteFrame rangeOrder frame s
                   = HalfStream_WriteFrame rangeOrder OutputHalf frame s
              else ∃ e, StreamOutput_WriteFrame rangeOrder frame s = Done (s, Some e))
  ∧ (∀ h actions id loc s' frames,
       history rangeOrder h actions (NewStream id loc) = Done (s', frames) →
       (∀ i f, frames !! i = Some f → opening f = true → N.of_nat i mod 2 ^ 32 = 0)
       ∧ (∀ i j f g, frames !! i = Some f → frames !! j = Some g →
            opening f = true → opening g = true →
            N.of_nat i < 2 ^ 32 → N.of_nat j < 2 ^ 32 → i = j)
       ∧ local s' = loc ∧ wfStream s').
Proof.
  split; [| split; [| split; [| split]]].
  - intros Hwf Hopen Hroom.
    split; [| split; [| split; [| split]]]; intros;
      rewrite receives_iff by assumption; simpl;
      rewrite ?first_and_not, ?first_and, ?N.ltb_lt; reflexivity.
  - intros Hwf Hopen Hroom.
    split; [| split; [| split]]; intros;
      rewrite sends_iff by assumption; simpl;
      rewrite ?first_and_not, ?first_and, ?N.ltb_lt; reflexivity.
  - intros Hopen frame. apply StreamInput_WriteFrame_open. assumption.
  - intros Hopen frame. apply StreamOutput_WriteFrame_open. assumption.
  - intros h actions id loc s' frames Hrun.
    assert (Hpos : ∀ i f, frames !! i = Some f → opening f = true → N.of_nat i mod 2 ^ 32 = 0).
    { intros i f Hi Hop.
      apply (history_opening h actions (NewStream id loc) s' 0 frames
               ltac:(destruct h; reflexivity) Hrun i f Hi Hop). }
    split; [exact Hpos | split].
    + intros i j f g Hi Hj Hf Hg Hlti Hltj.
      pose proof (Hpos i f Hi Hf) as Hi0. pose proof (Hpos j g Hj Hg) as Hj0.
      rewrite N.mod_small in Hi0, Hj0 by assumption. lia.
    + split; [apply (history_local h actions _ _ _ Hrun) |].
      apply (history_wf h actions _ _ _ (NewStream_wf id loc) Hrun).
Qed.

End StreamFacts.

(** ** The frame channel is a queue with a one-shot end *)

Lemma writeFrames_room (frames : list Frame) (framer : ChanFramer) :
  err framer = None → closed (ch framer) = false →
  (length (buf (ch framer)) + length frames ≤ chanCap)%nat →
  writeFrames frames framer
  = Done ({| ch := Chan (buf (ch framer) ++ frames) false; err := None |},
          (λ _, None) <$> frames).
Proof.
  revert framer. induction frames as [| frame frames IH]; intros framer He Hc Hlen; simpl.
  - rewrite app_nil_r. destruct framer as [[q c] e]. simpl in *. subst. reflexivity.
  - simpl in Hlen.
    rewrite ChanFramer_WriteFrame_room by (try assumption; lia). simpl.
    rewrite IH; simpl; try reflexivity.
    + rewrite <- app_assoc. reflexivity.
    + rewrite length_app. simpl. lia.
Qed.

Lemma readFrames_buffered (q rest : list Frame) (framer : ChanFramer) :
  buf (ch framer) = q ++ rest →
  readFrames (length q) framer
  = Done ({| ch := Chan rest (closed (ch framer)); err := err framer |},
          (λ frame, (Some frame, None)) <$> q).
Proof.
  revert framer. induction q as [| frame q IH]; intros framer Hbuf; simpl.
  - destruct framer as [[b c] e]. simpl in *. subst. reflexivity.
  - unfold ChanFramer_ReadFrame, chan_recv. rewrite Hbuf. simpl.
    rewrite IH by reflexivity. reflexivity.
Qed.

Lemma ChanFramer_ReadFrame_drained (framer : ChanFramer) :
  closed (ch framer) = true → buf (ch framer) = [] →
  ChanFramer_ReadFrame framer = Done (framer, (None, err framer)).
Proof.
  intros Hc Hb. unfold ChanFramer_ReadFrame, chan_recv. rewrite Hb, Hc. simpl.
  destruct framer. reflexivity.
Qed.

(** C5.  (1) Frames written to a fresh [ChanFramer], and more generally to
    an open one within the capacity of its channel, are all accepted, and
    reads then return the buffered frames oldest first: three writes of
    F1, F2, F3 are followed by three reads of F1, F2, F3.  (2) The first
    [Error(e)] (resp. [Close]) on an open framer records [e] (resp.
    [io.EOF]) and closes the channel without touching the buffer.  (3)
    Once an error [e] is recorded, every later [Error], whatever its
    argument, and every later [Close] return without changing the framer;
    [Closed] reports true whatever the buffer holds; every write returns
    [e] and leaves the framer, its buffer included, unchanged; the frames
    still buffered are read out in order, and with the buffer empty every
    read returns no frame and [e] and leaves the framer unchanged. *)
Theorem C5_chan_framer_fifo_one_shot (F1 F2 F3 : Frame) (framer : ChanFramer) (e : error) :
  (∃ fr fr', writeFrames [F1; F2; F3] NewChanFramer = Done (fr, [None; None; None])
             ∧ readFrames 3 fr
               = Done (fr', [(Some F1, None); (Some F2, None); (Some F3, None)]))
  ∧ (∀ frames, err framer = None → closed (ch framer) = false →
       (length (buf (ch framer)) + length frames ≤ chanCap)%nat →
       ∃ fr fr', writeFrames frames framer = Done (fr, (λ _, None) <$> frames)
                 ∧ readFrames (length (buf (ch framer) ++ frames)) fr
                   = Done (fr', (λ frame, (Some frame, None)) <$> (buf (ch framer) ++ frames)))
  ∧ (err framer = None → closed (ch framer) = false →
       ChanFramer_Error (Some e) framer
       = Done {| ch := Chan (buf (ch framer)) true; err := Some e |}
       ∧ ChanFramer_Close framer
         = Done {| ch := Chan (buf (ch framer)) true; err := Some EOF |})
  ∧ (err framer = Some e →
       (∀ x, ChanFramer_Error x framer = Done framer)
       ∧ ChanFramer_Close framer = Done framer
       ∧ ChanFramer_Closed framer = true
       ∧ (∀ frame, ChanFramer_WriteFrame frame framer = Done (framer, Some e))
       ∧ (closed (ch framer) = true →
            (∃ fr', readFrames (length (buf (ch framer))) framer
                    = Done (fr', (λ frame, (Some frame, None)) <$> buf (ch framer))
                    ∧ err fr' = Some e ∧ closed (ch fr') = true ∧ buf (ch fr') = [])
            ∧ (buf (ch framer) = [] →
                 ChanFramer_ReadFrame framer = Done (framer, (None, Some e))))).
Proof.
  split; [| split; [| split]].
  - eexists. eexists. split; reflexivity.
  - intros frames He Hc Hlen. eexists. eexists.
    rewrite writeFrames_room by assumption. split; [reflexivity |].
    apply (readFrames_buffered _ []). simpl. rewrite app_nil_r. reflexivity.
  - intros He Hc. unfold ChanFramer_Close.
    rewrite !ChanFramer_Error_first by assumption. auto.
  - intros He. split; [| split; [| split; [| split]]].
    + intros x. apply (ChanFramer_Error_recorded _ _ e). assumption.
    + apply (ChanFramer_Error_recorded _ _ e). assumption.
    + unfold ChanFramer_Closed. rewrite He. reflexivity.
    + intros frame. apply ChanFramer_WriteFrame_closed. assumption.
    + intros Hc. split.
      * eexists. rewrite (readFrames_buffered _ []) by (rewrite app_nil_r; reflexivity).
        split; [reflexivity |]. simpl. auto.
      * intros Hb. rewrite ChanFramer_ReadFrame_drained by assumption.
        rewrite He. reflexivity.
Qed.

(** ** Copy *)

Section CopyFacts.

Context {F R W : Type}.
Variable ReadFrame : R → outcome (R * (F * option error)).
Variable WriteFrame : F → W → outcome (W * option error).

Lemma Copy_terminal (fuel : nat) (w : option W) (r r' : R) (frame : F) (t : error) :
  ReadFrame r = Done (r', (frame, Some t)) →
  Copy ReadFrame WriteFrame (S fuel) w r = Some (Done (w, r', copyResult t)).
Proof. intros Hr. simpl. rewrite Hr. destruct t; reflexivity. Qed.

(** Without a writer, [Copy] reads to the terminal condition. *)
Lemma Copy_discard (frames : list F) (r r1 r2 : R) (frame : F) (t : error) (fuel : nat) :
  reads ReadFrame r frames r1 →
  ReadFrame r1 = Done (r2, (frame, Some t)) →
  (length frames < fuel)%nat →
  Copy ReadFrame WriteFrame fuel None r = Some (Done (None, r2, copyResult t)).
Proof.
  intros Hreads Hterm. revert fuel.
  induction Hreads as [r | r f0 r1' frames r' Hr Hreads IH]; intros fuel Hfuel.
  - destruct fuel as [| fuel]; [simpl in Hfuel; lia |].
    apply (Copy_terminal _ _ _ _ frame). assumption.
  - destruct fuel as [| fuel]; [simpl in Hfuel; lia |].
    simpl. rewrite Hr. apply IH; [assumption | simpl in Hfuel; lia].
Qed.

(** With a writer whose writes all succeed, [Copy] forwards every frame,
    in order, and reads to the terminal condition. *)
Lemma Copy_forward (frames : list F) (w w' : W) (r r1 r2 : R) (frame : F) (t : error)
    (fuel : nat) :
  reads ReadFrame r frames r1 →
  ReadFrame r1 = Done (r2, (frame, Some t)) →
  writes WriteFrame w frames w' →
  (length frames < fuel)%nat →
  Copy ReadFrame WriteFrame fuel (Some w) r = Some (Done (Some w', r2, copyResult t)).
Proof.
  intros Hreads Hterm. revert w fuel.
  induction Hreads as [r | r f0 r1' frames r' Hr Hreads IH]; intros w fuel Hwrites Hfuel.
  - inversion Hwrites; subst.
    destruct fuel as [| fuel]; [simpl in Hfuel; lia |].
    apply (Copy_terminal _ _ _ _ frame). assumption.
  - inversion Hwrites as [| w0 f1 w1 fs w2 Hw Hws]; subst.
    destruct fuel as [| fuel]; [simpl in Hfuel; lia |].
    simpl. rewrite Hr, Hw. apply IH; [assumption | assumption | simpl in Hfuel; lia].
Qed.

(** A write that fails ends [Copy] at once, with that error: the frames
    before it were forwarded, and the reader was not called again. *)
Lemma Copy_write_error (pre : list F) (frame : F) (w w1 w2 : W) (r r1 : R) (e : error)
    (fuel : nat) :
  reads ReadFrame r (pre ++ [frame]) r1 →
  writes WriteFrame w pre w1 →
  WriteFrame frame w1 = Done (w2, Some e) →
  (length pre < fuel)%nat →
  Copy ReadFrame WriteFrame fuel (Some w) r = Some (Done (Some w2, r1, Some e)).
Proof.
  revert w r fuel. induction pre as [| f0 pre IH]; intros w r fuel Hreads Hwrites Hfail Hfuel.
  - inversion Hwrites; subst. simpl in Hreads.
    inversion Hreads as [| r0 f1 r1' fs r' Hr Hrest]; subst.
    inversion Hrest; subst.
    destruct fuel as [| fuel]; [simpl in Hfuel; lia |].
    simpl. rewrite Hr, Hfail. reflexivity.
  - inversion Hwrites as [| w0 f1 w1' fs w3 Hw Hws]; subst. simpl in Hreads.
    inversion Hreads as [| r0 f1 r1' fs r' Hr Hrest]; subst.
    destruct fuel as [| fuel]; [simpl in Hfuel; lia |].
    simpl. rewrite Hr, Hw. apply (IH _ _ _ Hrest Hws Hfail). simpl in Hfuel. lia.
Qed.

(** C8.  For a reader that delivers the frames of [frames] and then the
    terminal condition [t], and enough iterations: [Copy] returns nil when
    [t] is [io.EOF] and [t] itself otherwise, both without a writer (then
    nothing is written: the result does not depend on [WriteFrame]) and
    with a writer whose writes of [frames], in order, succeed, which is
    left in the state after those writes.  With a writer, whose writes of
    [pre], in order, succeed and whose write of the next frame fails with
    [e], [Copy] returns [e], the writer is in the state after that last
    write, and the reader in the state after the read of the failing
    frame. *)
Theorem C8_Copy (frames pre : list F) (frame failing : F) (t e : error)
    (r r1 r2 r3 : R) (w w' w1 w2 : W) (fuel : nat) :
  (copyResult EOF = None ∧ (t ≠ EOF → copyResult t = Some t))
  ∧ (reads ReadFrame r frames r1 →
     ReadFrame r1 = Done (r2, (frame, Some t)) →
     (length frames < fuel)%nat →
     Copy ReadFrame WriteFrame fuel None r = Some (Done (None, r2, copyResult t))
     ∧ (writes WriteFrame w frames w' →
        Copy ReadFrame WriteFrame fuel (Some w) r
        = Some (Done (Some w', r2, copyResult t))))
  ∧ (reads ReadFrame r (pre ++ [failing]) r3 →
     writes WriteFrame w pre w1 →
     WriteFrame failing w1 = Done (w2, Some e) →
     (length pre < fuel)%nat →
     Copy ReadFrame WriteFrame fuel (Some w) r = Some (Done (Some w2, r3, Some e))).
Proof.
  split; [| split].
  - split; [reflexivity |]. destruct t; [contradiction | reflexivity].
  - intros Hreads Hterm Hfuel. split.
    + apply (Copy_discard frames r r1 r2 frame); assumption.
    + intros Hwrites. apply (Copy_forward frames w w' r r1 r2 frame); assumption.
  - apply Copy_write_error.
Qed.

End CopyFacts.

(** A script delivers its frames. *)
Lemma scriptReadFrame_reads {F : Type} (nilFrame : F) (t : error) (frames : list F) :
  reads (scriptReadFrame nilFrame t) frames frames []
  ∧ scriptReadFrame nilFrame t [] = Done ([], (nilFrame, Some t)).
Proof.
  split; [| reflexivity].
  induction frames as [| frame frames IH].
  - constructor.
  - econstructor; [reflexivity | exact IH].
Qed.

(** ** The statements at concrete inputs *)

(** [map_to_list] is one of the orders a [range] may follow. *)
Lemma map_to_list_order (m : gmap string (list string)) : map_to_list m ≡ₚ map_to_list m.
Proof. reflexivity. Defined.

Lemma chanCap_pos : (0 < chanCap)%nat.
Proof. apply Nat.ltb_lt. reflexivity. Defined.

Lemma C2_send_rejects_other_frames_witness :
  (∃ e, StreamOutput_WriteFrame map_to_list (PingFrame {| Flags := 0 |}) (NewStream 1 true)
        = Done (NewStream 1 true, Some e))
  ∧ (∃ e, Stream_Rst map_to_list 9 (NewStream 1 true) = Done (NewStream 1 true, Some e)).
Proof.
  destruct (C2_send_rejects_other_frames map_to_list (PingFrame {| Flags := 0 |}) 9
              (NewStream 1 true)) as (H1 & _ & H2 & _).
  - reflexivity.
  - split; assumption.
Defined.

(** A fresh stream opened by the peer takes an OpenStream and no Reply on
    its receive side, and sends a Reply and no OpenStream. *)
Lemma legal_frames_by_state_witness :
  receives map_to_list (SynStreamFrame {| Flags := 0 |} 1 None) (NewStream 1 false)
  ∧ sends map_to_list (SynReplyFrame {| Flags := 0 |} 1 None) (NewStream 1 false).
Proof.
  destruct (legal_frames_by_state map_to_list (NewStream 1 false)) as (Hin & Hout & _).
  destruct (Hin (NewStream_wf 1 false) eq_refl chanCap_pos) as (Hsyn & _).
  destruct (Hout (NewStream_wf 1 false) eq_refl chanCap_pos) as (_ & Hreply & _).
  split; [apply Hsyn | apply Hreply]; split; reflexivity.
Defined.

(** A Data frame with the fin flag, written to the receive half of a fresh
    stream, closes that half and leaves the send half as it was. *)
Lemma C4_effect_of_admission_witness :
  ∃ s', HalfStream_WriteFrame map_to_list InputHalf (DataFrame 1 1 []) (NewStream 1 false)
        = Done (s', None)
        ∧ queue InputHalf s' = [DataFrame 1 1 []]
        ∧ nFrames (Input s') = 1
        ∧ HalfStream_Closed InputHalf s' = true
        ∧ Output s' = Output (NewStream 1 false).
Proof.
  eexists. split; [reflexivity |].
  destruct (C4_effect_of_admission map_to_list InputHalf (DataFrame 1 1 []) (NewStream 1 false)
              _ eq_refl) as (Hq & Hn & Hfin & _).
  destruct (Hfin eq_refl eq_refl) as (Hc & Ho).
  split; [exact Hq | split; [exact Hn | split; [exact Hc | exact Ho]]].
Defined.

(** A framer closed with two frames still buffered. *)
Lemma C5_chan_framer_fifo_one_shot_witness :
  let framer := {| ch := Chan [PingFrame {| Flags := 0 |}; NoopFrame {| Flags := 0 |}] true;
                   err := Some EOF |} in
  ChanFramer_Error (Some (errorString "late")) framer = Done framer
  ∧ ChanFramer_Closed framer = true
  ∧ ChanFramer_WriteFrame (NoopFrame {| Flags := 0 |}) framer = Done (framer, Some EOF)
  ∧ ∃ fr', readFrames 2 framer
           = Done (fr', [(Some (PingFrame {| Flags := 0 |}), None);
                         (Some (NoopFrame {| Flags := 0 |}), None)])
           ∧ ChanFramer_ReadFrame fr' = Done (fr', (None, Some EOF)).
Proof.
  intros framer.
  destruct (C5_chan_framer_fifo_one_shot (NoopFrame {| Flags := 0 |}) (NoopFrame {| Flags := 0 |})
              (NoopFrame {| Flags := 0 |}) framer EOF) as (_ & _ & _ & Hterm).
  destruct (Hterm eq_refl) as (Herr & _ & Hclosed & Hwrite & Hread).
  split; [apply Herr | split; [exact Hclosed | split; [apply Hwrite |]]].
  eexists. split; reflexivity.
Defined.

Lemma C6_header_merge_is_additive_witness :
  (h1 ← UpdateHeaders map_to_list (Some ∅) (Some {["a" := ["1"]]});
   UpdateHeaders map_to_list h1 (Some (<["a" := ["2"]]> {["b" := ["3"]]})))
  = Done (Some (<["A" := ["1"; "2"]]> {["B" := ["3"]]}))
  ∧ UpdateHeaders map_to_list (Some ∅) (Some {["a b" := ["1"]]})
    = Done (Some {["a b" := ["1"]]}).
Proof.
  destruct (C6_header_merge_is_additive map_to_list map_to_list_order)
    as (_ & _ & _ & _ & _ & _ & Hab & Hspace).
  split; [exact Hab | exact Hspace].
Defined.

(** C6, as worded, at its own example: the merge files nothing under the
    keys "a" and "b"; the values are under "A" and "B". *)
Lemma C6_counterexample :
  ∃ hd, (h1 ← UpdateHeaders map_to_list (Some ∅) (Some {["a" := ["1"]]});
         UpdateHeaders map_to_list h1 (Some (<["a" := ["2"]]> {["b" := ["3"]]})))
        = Done hd
        ∧ headerGet hd "a" = [] ∧ headerGet hd "b" = []
        ∧ headerGet hd "A" = ["1"; "2"] ∧ headerGet hd "B" = ["3"]
        ∧ headerLen hd = 2%nat.
Proof. eexists. split; [vm_compute; reflexivity |]. repeat split. Qed.

(** [Copy] from a script of an OpenStream and a Data frame with the fin
    flag, ended by [io.EOF]: into no writer, into a fresh [ChanFramer], and
    into a closed one. *)
Lemma C8_Copy_witness :
  let syn := SynStreamFrame {| Flags := 0 |} 1 None in
  let data := DataFrame 1 1 [] in
  let nilFrame := NoopFrame {| Flags := 0 |} in
  let closedFramer := {| ch := Chan [] true; err := Some EOF |} in
  Copy (scriptReadFrame nilFrame EOF) ChanFramer_WriteFrame 3 None [syn; data]
  = Some (Done (None, [], None))
  ∧ Copy (scriptReadFrame nilFrame EOF) ChanFramer_WriteFrame 3 (Some NewChanFramer) [syn; data]
    = Some (Done (Some {| ch := Chan [syn; data] false; err := None |}, [], None))
  ∧ Copy (scriptReadFrame nilFrame EOF) ChanFramer_WriteFrame 3 (Some closedFramer) [syn; data]
    = Some (Done (Some closedFramer, [data], Some EOF)).
Proof.
  intros syn data nilFrame closedFramer.
  destruct (C8_Copy (scriptReadFrame nilFrame EOF) ChanFramer_WriteFrame
              [syn; data] [] nilFrame syn EOF EOF
              [syn; data] [] [] [data]
              NewChanFramer {| ch := Chan [syn; data] false; err := None |}
              NewChanFramer NewChanFramer 3%nat) as (_ & Hall & _).
  destruct Hall as (Hnil & Hfwd).
  { apply scriptReadFrame_reads. }
  { reflexivity. }
  { simpl. lia. }
  destruct (C8_Copy (scriptReadFrame nilFrame EOF) ChanFramer_WriteFrame
              [syn; data] [] nilFrame syn EOF EOF
              [syn; data] [] [] [data]
              closedFramer closedFramer closedFramer closedFramer 3%nat) as (_ & _ & Hfail).
  split; [exact Hnil | split].
  - apply Hfwd.
    econstructor; [reflexivity |]. econstructor; [reflexivity |]. constructor.
  - apply Hfail.
    + econstructor; [reflexivity | constructor].
    + constructor.
    + reflexivity.
    + simpl. lia.
Defined.

(** The first frame of a stream opened by the peer. *)
Lemma C9_receive_validator_never_fails_witness :
  ∃ s', StreamInput_WriteFrame map_to_list (SynStreamFrame {| Flags := 0 |} 1 None)
          (NewStream 1 false) = Done (s', None).
Proof.
  destruct (C9_receive_validator_never_fails map_to_list (SynStreamFrame {| Flags := 0 |} 1 None)
              (NewStream 1 false)) as (_ & Hroom & _).
  exact (Hroom (NewStream_wf 1 false) chanCap_pos).
Defined.

(** C9, as worded, fails on a stream whose receive queue is full: after an
    OpenStream and 4095 Data frames that nobody read, all 4096 accepted,
    the call for one more Data frame does not return. *)
Lemma C9_counterexample :
  let syn := SynStreamFrame {| Flags := 0 |} 1 None in
  let data := DataFrame 1 0 [] in
  ∃ s, feedInput map_to_list (syn :: repeat data 4095) (NewStream 1 false) = Done s
       ∧ wfStream s
       ∧ length (queue InputHalf s) = 4096%nat
       ∧ nFrames (Input s) = 4096
       ∧ HalfStream_Closed InputHalf s = false
       ∧ StreamInput_WriteFrame map_to_list data s = Blocked.
Proof.
  eexists. split; [vm_compute; reflexivity |].
  split; [split; split; simpl; eauto |].
  repeat split; vm_compute; reflexivity.
Qed.

(** [Syn] with nil headers on a fresh local stream. *)
Lemma C10_nil_headers_witness :
  ∃ s', Stream_Syn map_to_list None true (NewStream 1 true) = Done (s', None)
        ∧ queue OutputHalf s' = [SynStreamFrame {| Flags := 1 |} 1 None]
        ∧ Headers (Output s') = Some ∅.
Proof.
  pose proof (C10_nil_headers map_to_list true (NewStream 1 true) (NewStream_wf 1 true)) as H.
  simpl in H. destruct H as (_ & _ & _ & _ & _ & _ & _ & _ & _ & _ & Hsyn & _).
  eexists. split; [reflexivity |]. apply Hsyn. reflexivity.
Defined.

(** * More of the package *)

Section MoreStreamFacts.

Variable rangeOrder : gmap string (list string) → list (string * list string).

(** ** What a write leaves alone *)

Lemma chan_send_Done (frame : Frame) (c c' : chan) :
  chan_send frame c = Done c' →
  closed c = false ∧ (length (buf c) < chanCap)%nat ∧ c' = Chan (buf c ++ [frame]) false.
Proof.
  unfold chan_send. destruct (closed c); [discriminate |].
  destruct (Nat.ltb_spec (length (buf c)) chanCap); [| discriminate].
  intros [= <-]. auto.
Qed.

(** A write that returns nil found room in the channel of the half. *)
Lemma HalfStream_WriteFrame_had_room (h : half) (frame : Frame) (s s' : Stream) :
  HalfStream_WriteFrame rangeOrder h frame s = Done (s', None) → hasRoom h s.
Proof.
  unfold HalfStream_WriteFrame, ChanFramer_WriteFrame, hasRoom, queue.
  destruct (err (framer (getHalf h s))); [simpl; discriminate |].
  destruct (chan_send frame (ch (framer (getHalf h s)))) as [c | |] eqn:Hs;
    simpl; try discriminate.
  intros _. apply chan_send_Done in Hs. tauto.
Qed.

Lemma HalfStream_Close_other (h : half) (s s' : Stream) :
  HalfStream_Close h s = Done s' →
  queue h s' = queue h s
  ∧ (HalfStream_Closed h s = true → s' = s)
  ∧ (HalfStream_Closed h s = false → err (framer (getHalf h s')) = Some EOF).
Proof.
  unfold HalfStream_Close, HalfStream_Closed, queue, ChanFramer_Close, ChanFramer_Error,
    ChanFramer_Closed, chan_close.
  destruct (err (framer (getHalf h s))) as [e |] eqn:He; simpl.
  - intros [= <-]. split; [destruct h; reflexivity |]. split; [| discriminate].
    intros _. destruct s as [id [fi hi ni] [fo ho no] l]; destruct h; simpl in *; reflexivity.
  - destruct (closed (ch (framer (getHalf h s)))); simpl; [discriminate |].
    intros [= <-]. split; [destruct h; reflexivity |]. split; [discriminate |].
    intros _. destruct h; reflexivity.
Qed.

(** A write to half [h], whatever it returns, leaves the queue, the
    counter and the headers of the other half as they were, and the whole
    other half unless the frame is a Reset. *)
Lemma HalfStream_WriteFrame_other (h : half) (frame : Frame) (s s' : Stream) (r : option error) :
  HalfStream_WriteFrame rangeOrder h frame s = Done (s', r) →
  queue (otherHalf h) s' = queue (otherHalf h) s
  ∧ nFrames (getHalf (otherHalf h) s') = nFrames (getHalf (otherHalf h) s)
  ∧ Headers (getHalf (otherHalf h) s') = Headers (getHalf (otherHalf h) s)
  ∧ (isRst frame = false → getHalf (otherHalf h) s' = getHalf (otherHalf h) s)
  ∧ (HalfStream_Closed (otherHalf h) s = true →
       getHalf (otherHalf h) s' = getHalf (otherHalf h) s).
Proof.
  unfold HalfStream_WriteFrame.
  destruct (ChanFramer_WriteFrame frame (framer (getHalf h s))) as [[fr [e |]] | |] eqn:Hw;
    simpl; try discriminate.
  { intros [= <- _]. auto. }
  set (s1 := setHalf h _ s).
  assert (H1 : getHalf (otherHalf h) s1 = getHalf (otherHalf h) s)
    by (subst s1; destruct h; reflexivity).
  clearbody s1.
  destruct (if GetFinFlag frame then HalfStream_Close h s1 else Done s1)
    as [s2 | |] eqn:Hfin; simpl; try discriminate.
  assert (H2 : getHalf (otherHalf h) s2 = getHalf (otherHalf h) s1).
  { destruct (GetFinFlag frame); [| injection Hfin as <-; reflexivity].
    apply HalfStream_Close_Done in Hfin. tauto. }
  clear Hfin.
  match goal with |- (?o ≫= _) = _ → _ => destruct o as [s3 | |] eqn:Hhd end;
    simpl; try discriminate.
  assert (H3 : getHalf (otherHalf h) s3 = getHalf (otherHalf h) s2).
  { destruct (GetHeaders frame) as [hd |]; [| injection Hhd as <-; reflexivity].
    destruct (UpdateHeaders rangeOrder (Headers (getHalf h s2)) hd); simpl in Hhd;
      try discriminate.
    injection Hhd as <-. destruct h; reflexivity. }
  clear Hhd.
  destruct (if isRst frame then Stream_Close s3 else Done s3) as [s4 | |] eqn:Hrst;
    simpl; try discriminate.
  intros [= <- _].
  destruct (isRst frame).
  - unfold Stream_Close in Hrst.
    destruct (HalfStream_Close InputHalf s3) as [s3' | |] eqn:Hci; simpl in Hrst;
      try discriminate.
    pose proof (HalfStream_Close_other _ _ _ Hci) as (_ & Hsi & _).
    pose proof (HalfStream_Close_other _ _ _ Hrst) as (_ & Hso & _).
    apply HalfStream_Close_Done in Hci as (_ & Hqi & Hni & Hhi & Hoi & _).
    apply HalfStream_Close_Done in Hrst as (_ & Hqo & Hno & Hho & Hoo & _).
    assert (E : getHalf (otherHalf h) s3 = getHalf (otherHalf h) s) by congruence.
    clear H1 H2 H3. unfold queue, HalfStream_Closed in *.
    destruct h; simpl in *; (split; [| split; [| split; [| split]]]);
      try discriminate; try congruence.
    + intros Hc. rewrite Hoi, E in Hso. rewrite (Hso Hc). congruence.
    + intros Hc. rewrite E in Hsi. rewrite Hoo, (Hsi Hc). exact E.
  - injection Hrst as <-. unfold queue. rewrite H3, H2, H1. auto.
Qed.

(** ** One action, seen from one half *)

Lemma StreamInput_WriteFrame_cases (frame : Frame) (s s1 : Stream) (r : option error) :
  StreamInput_WriteFrame rangeOrder frame s = Done (s1, r) →
  s1 = s
  ∨ (HalfStream_Closed InputHalf s = false
     ∧ receiveLegal (nFrames (Input s)) (local s) frame = true
     ∧ HalfStream_WriteFrame rangeOrder InputHalf frame s = Done (s1, None)).
Proof.
  intros Hw. destruct (HalfStream_Closed InputHalf s) eqn:Hc.
  - rewrite StreamInput_WriteFrame_closed in Hw by assumption. injection Hw as <- _. auto.
  - rewrite StreamInput_WriteFrame_open in Hw by assumption.
    destruct (receiveLegal _ _ _); [| injection Hw as <- _; auto].
    pose proof (HalfStream_WriteFrame_no_error _ _ _ _ _ _ Hc Hw) as ->. auto.
Qed.

Lemma StreamOutput_WriteFrame_cases (frame : Frame) (s s1 : Stream) (r : option error) :
  StreamOutput_WriteFrame rangeOrder frame s = Done (s1, r) →
  (s1 = s ∧ r ≠ None)
  ∨ (HalfStream_Closed OutputHalf s = false
     ∧ sendLegal (nFrames (Output s)) (local s) frame = true
     ∧ r = None
     ∧ HalfStream_WriteFrame rangeOrder OutputHalf frame s = Done (s1, None)).
Proof.
  intros Hw. destruct (HalfStream_Closed OutputHalf s) eqn:Hc.
  - destruct (StreamOutput_WriteFrame_closed rangeOrder frame s Hc) as [e He].
    rewrite He in Hw. injection Hw as <- <-. left. split; [reflexivity | discriminate].
  - pose proof (StreamOutput_WriteFrame_open rangeOrder frame s Hc) as Hv.
    destruct (sendLegal _ _ _).
    + rewrite Hv in Hw.
      pose proof (HalfStream_WriteFrame_no_error _ _ _ _ _ _ Hc Hw) as ->. auto.
    + destruct Hv as [e He]. rewrite He in Hw. injection Hw as <- <-.
      left. split; [reflexivity | discriminate].
Qed.

(** What an action offers, it offers to the validator of that half: when
    the action returns, either the stream is as before or the frame passed
    the rule of the half and went through [HalfStream.WriteFrame]. *)
Lemma perform_offered (a : action) (h0 : half) (frame : Frame) (s s1 : Stream) :
  offered a = Some (h0, frame) →
  perform rangeOrder a s = Done s1 →
  s1 = s
  ∨ (HalfStream_Closed h0 s = false
     ∧ legalOn h0 (nFrames (getHalf h0 s)) (local s) frame = true
     ∧ HalfStream_WriteFrame rangeOrder h0 frame s = Done (s1, None)).
Proof.
  destruct a as [f | f | |]; simpl; try discriminate; intros [= <- <-].
  - destruct (StreamInput_WriteFrame rangeOrder f s) as [[s' r] | |] eqn:Hw;
      simpl; try discriminate.
    intros [= <-]. apply (StreamInput_WriteFrame_cases _ _ _ _ Hw).
  - destruct (StreamOutput_WriteFrame rangeOrder f s) as [[s' r] | |] eqn:Hw;
      simpl; try discriminate.
    intros [= <-].
    destruct (StreamOutput_WriteFrame_cases _ _ _ _ Hw) as [[-> _] | (? & ? & _ & ?)]; auto.
Qed.

Lemma Stream_ReadFrame_Done (s s1 : Stream) (frame : option Frame) (e : option error) :
  Stream_ReadFrame s = Done (s1, (frame, e)) →
  Output s1 = Output s ∧ Id s1 = Id s ∧ local s1 = local s
  ∧ nFrames (Input s1) = nFrames (Input s)
  ∧ Headers (Input s1) = Headers (Input s)
  ∧ err (framer (Input s1)) = err (framer (Input s))
  ∧ closed (ch (framer (Input s1))) = closed (ch (framer (Input s)))
  ∧ match frame with
    | Some f => queue InputHalf s = f :: queue InputHalf s1 ∧ e = None
    | None => queue InputHalf s = [] ∧ queue InputHalf s1 = []
              ∧ closed (ch (framer (Input s))) = true
              ∧ e = err (framer (Input s))
    end.
Proof.
  unfold Stream_ReadFrame, ChanFramer_ReadFrame, chan_recv, queue. simpl.
  destruct (buf (ch (framer (Input s)))) as [| f rest] eqn:Hb; simpl.
  - destruct (closed (ch (framer (Input s)))) eqn:Hc; simpl; [| discriminate].
    intros [= <- <- <-]. simpl. rewrite Hb, Hc. auto 15.
  - intros [= <- <- <-]. simpl. auto 15.
Qed.

Lemma Stream_Close_Done (s s' : Stream) :
  Stream_Close s = Done s' →
  HalfStream_Closed InputHalf s' = true ∧ HalfStream_Closed OutputHalf s' = true
  ∧ Id s' = Id s ∧ local s' = local s
  ∧ ∀ h, queue h s' = queue h s
         ∧ nFrames (getHalf h s') = nFrames (getHalf h s)
         ∧ Headers (getHalf h s') = Headers (getHalf h s)
         ∧ (HalfStream_Closed h s = true → getHalf h s' = getHalf h s)
         ∧ (HalfStream_Closed h s = false → err (framer (getHalf h s')) = Some EOF).
Proof.
  unfold Stream_Close.
  destruct (HalfStream_Close InputHalf s) as [s1 | |] eqn:Hi; simpl; try discriminate.
  intros Ho.
  pose proof (HalfStream_Close_other _ _ _ Hi) as (_ & Hsi & Hei).
  pose proof (HalfStream_Close_other _ _ _ Ho) as (_ & Hso & Heo).
  apply HalfStream_Close_Done in Hi as (Hci & Hqi & Hni & Hhi & Hoi & Hii & Hli).
  apply HalfStream_Close_Done in Ho as (Hco & Hqo & Hno & Hho & Hoo & Hio & Hlo).
  simpl in *.
  assert (Hcin : HalfStream_Closed InputHalf s' = true)
    by (unfold HalfStream_Closed in *; simpl in *; rewrite Hoo; exact Hci).
  assert (Hout : HalfStream_Closed OutputHalf s1 = HalfStream_Closed OutputHalf s)
    by (unfold HalfStream_Closed; simpl; rewrite Hoi; reflexivity).
  repeat split; try congruence.
  - destruct h; unfold queue in *; simpl in *; congruence.
  - destruct h; simpl; congruence.
  - destruct h; simpl; congruence.
  - destruct h; simpl; intros Hc.
    + rewrite Hoo. rewrite (Hsi Hc). reflexivity.
    + rewrite Hout in Hso. rewrite (Hso Hc). exact Hoi.
  - destruct h; simpl; intros Hc.
    + rewrite Hoo. apply Hei. exact Hc.
    + apply Heo. rewrite Hout. exact Hc.
Qed.

(** A write that returns nil and closes nothing leaves the half open. *)
Lemma HalfStream_WriteFrame_stays_open (h : half) (frame : Frame) (s s' : Stream) :
  HalfStream_WriteFrame rangeOrder h frame s = Done (s', None) →
  GetFinFlag frame || isRst frame = false →
  HalfStream_Closed h s' = false.
Proof.
  intros Hw Hno. apply orb_false_iff in Hno as [Hfin Hrst].
  revert Hw. unfold HalfStream_WriteFrame. rewrite Hfin, Hrst.
  destruct (ChanFramer_WriteFrame frame (framer (getHalf h s))) as [[fr [e |]] | |] eqn:Hw;
    simpl; try discriminate.
  apply ChanFramer_WriteFrame_ok in Hw as (_ & _ & ->).
  destruct (GetHeaders frame) as [hd |]; simpl.
  - match goal with |- (?o ≫= _) ≫= _ = _ → _ => destruct o as [hd' | |] end;
      simpl; try discriminate.
    intros [= <-]. destruct h; reflexivity.
  - intros [= <-]. destruct h; reflexivity.
Qed.

Lemma perform_view (h : half) (a : action) (s s1 : Stream) :
  perform rangeOrder a s = Done s1 →
  (counted h s s1 = false ∧ skips h a s s1)
  ∨ (∃ frame, offered a = Some (h, frame) ∧ counted h s s1 = true ∧ takes h frame s s1).
Proof.
  intros Hp.
  assert (Hsame : ∀ x : Stream, counted h x x = false)
    by (intros x; unfold counted; rewrite N.eqb_refl; reflexivity).
  destruct (offered a) as [[h0 frame] |] eqn:Hoff.
  - destruct (perform_offered a h0 frame s s1 Hoff Hp) as [-> | (Hopen & Hlegal & Hw)].
    { left. split; [apply Hsame |]. unfold skips. auto. }
    assert (Hh : h = h0 ∨ h = otherHalf h0) by (destruct h, h0; auto).
    destruct Hh as [-> | ->].
    + right. exists frame. split; [reflexivity |].
      pose proof (HalfStream_WriteFrame_had_room _ _ _ _ Hw) as Hroom.
      pose proof (HalfStream_WriteFrame_stays_open _ _ _ _ Hw) as Hstay.
      apply HalfStream_WriteFrame_Done in Hw as (Hq & Hn & Hfin & Hrst & _).
      split.
      * unfold counted. rewrite Hn. apply negb_true_iff, N.eqb_neq, uint32_succ_ne.
      * unfold takes. repeat split; try assumption.
        intros Hfr. destruct (isRst frame) eqn:Hr.
        -- destruct (Hrst eq_refl). destruct h0; assumption.
        -- rewrite orb_false_r in Hfr. apply (Hfin eq_refl Hfr).
    + left. apply HalfStream_WriteFrame_other in Hw as (Hq & Hn & Hh & _ & Hc).
      split; [unfold counted; rewrite Hn, N.eqb_refl; reflexivity |].
      unfold skips. repeat split; auto.
      intros Hcl. unfold HalfStream_Closed in *. rewrite (Hc Hcl). exact Hcl.
  - left. destruct a as [f | f | |]; try discriminate; simpl in Hp.
    + destruct (Stream_ReadFrame s) as [[s' [fr e]] | |] eqn:Hr; simpl in Hp;
        try discriminate.
      injection Hp as <-.
      apply Stream_ReadFrame_Done in Hr as (Ho & _ & _ & Hn & Hh & He & Hc & Hfr).
      destruct h; simpl.
      * split; [unfold counted; simpl; rewrite Hn, N.eqb_refl; reflexivity |].
        unfold skips, HalfStream_Closed, ChanFramer_Closed. simpl.
        rewrite He. repeat split; auto.
        destruct fr as [f |].
        -- right. destruct Hfr as [Hq _]. eauto.
        -- left. destruct Hfr as (Hq & Hq' & _). congruence.
      * split; [unfold counted; simpl; rewrite Ho, N.eqb_refl; reflexivity |].
        unfold skips, HalfStream_Closed, queue. simpl. rewrite Ho. auto.
    + apply Stream_Close_Done in Hp as (Hci & Hco & _ & _ & Hall).
      destruct (Hall h) as (Hq & Hn & Hh & _).
      split; [unfold counted; rewrite Hn, N.eqb_refl; reflexivity |].
      unfold skips. repeat split; auto. intros _. destruct h; assumption.
Qed.

(** One step of [history]. *)
Lemma history_step (h : half) (a : action) (actions : list action) (s s' : Stream)
    (frames : list Frame) :
  history rangeOrder h (a :: actions) s = Done (s', frames) →
  ∃ s1 frames1,
    perform rangeOrder a s = Done s1
    ∧ history rangeOrder h actions s1 = Done (s', frames1)
    ∧ ((frames = frames1 ∧ skips h a s s1)
       ∨ (∃ frame, frames = frame :: frames1 ∧ offered a = Some (h, frame)
                   ∧ takes h frame s s1)).
Proof.
  simpl.
  destruct (perform rangeOrder a s) as [s1 | |] eqn:Hp; simpl; try discriminate.
  destruct (history rangeOrder h actions s1) as [[s2 frames1] | |] eqn:Hh;
    simpl; try discriminate.
  intros [= <- <-]. exists s1, frames1. split; [reflexivity |]. split; [exact Hh |].
  destruct (perform_view h a s s1 Hp) as [[Hcnt Hskip] | (frame & Hoff & Hcnt & Htake)].
  - left. split; [| assumption].
    destruct (offered a) as [[h' f] |]; [rewrite Hcnt, andb_false_r |]; reflexivity.
  - right. exists frame. rewrite Hoff, Hcnt, half_eqb_refl. auto.
Qed.

End MoreStreamFacts.

(** ** Runs of a stream *)

Section RunFacts.

Variable rangeOrder : gmap string (list string) → list (string * list string).

Lemma skips_bounded (h : half) (a : action) (s s1 : Stream) :
  skips h a s s1 → (length (queue h s1) ≤ length (queue h s))%nat.
Proof.
  intros (_ & _ & _ & [-> | (_ & _ & f & ->)]); simpl; lia.
Qed.

(** X1.  A run of receives, sends, reads and closes keeps the
    representation invariant, and no queue ever holds more than the 4096
    frames its channel can buffer. *)
Theorem run_keeps_invariant (h : half) (actions : list action) :
  ∀ (s s' : Stream) (frames : list Frame),
    wfStream s → bounded s →
    history rangeOrder h actions s = Done (s', frames) →
    wfStream s' ∧ bounded s'.
Proof.
  induction actions as [| a actions IH]; intros s s' frames Hwf Hb Hrun.
  - injection Hrun as <- _. auto.
  - apply history_step in Hrun as (s1 & frames1 & Hp & Hrest & _).
    apply (IH s1 s' frames1); [apply (perform_wf _ _ _ _ Hwf Hp) | | assumption].
    destruct Hb as [Hbi Hbo]. split.
    + destruct (perform_view rangeOrder InputHalf a s s1 Hp)
        as [[_ Hskip] | (f & _ & _ & Htake)].
      * apply skips_bounded in Hskip. lia.
      * destruct Htake as (_ & _ & Hroom & -> & _). unfold hasRoom in Hroom.
        rewrite length_app. simpl. lia.
    + destruct (perform_view rangeOrder OutputHalf a s s1 Hp)
        as [[_ Hskip] | (f & _ & _ & Htake)].
      * apply skips_bounded in Hskip. lia.
      * destruct Htake as (_ & _ & Hroom & -> & _). unfold hasRoom in Hroom.
        rewrite length_app. simpl. lia.
Qed.

(** X2.  What the reads of a run return is what the receive half admitted,
    in the order it admitted it: the frames queued at the start followed by
    the frames admitted during the run are the frames read during the run
    followed by the frames still queued at the end.  No admitted frame is
    lost, repeated or overtaken. *)
Theorem reads_follow_admissions (actions : list action) :
  ∀ (s s' : Stream) (taken : list Frame),
    history rangeOrder InputHalf actions s = Done (s', taken) →
    ∃ got, delivered rangeOrder actions s = Done (s', got)
           ∧ queue InputHalf s ++ taken = got ++ queue InputHalf s'.
Proof.
  induction actions as [| a actions IH]; intros s s' taken Hrun.
  - injection Hrun as <- <-. exists []. rewrite app_nil_r. auto.
  - apply history_step in Hrun as (s1 & taken1 & Hp & Hrest & Hcase).
    destruct (IH s1 s' taken1 Hrest) as (got1 & Hd & Hq).
    destruct a as [f | f | |].
    + exists got1. cbn [delivered]. rewrite Hp. simpl. rewrite Hd. simpl. split; [reflexivity |].
      destruct Hcase as [[-> Hskip] | (fr & -> & _ & Htake)].
      * destruct Hskip as (_ & _ & _ & [Hsame | (Hread & _)]); [| discriminate].
        rewrite <- Hsame. exact Hq.
      * destruct Htake as (_ & _ & _ & Hqs & _). rewrite Hqs, <- app_assoc in Hq. exact Hq.
    + exists got1. cbn [delivered]. rewrite Hp. simpl. rewrite Hd. simpl. split; [reflexivity |].
      destruct Hcase as [[-> Hskip] | (fr & _ & [=] & _)].
      destruct Hskip as (_ & _ & _ & [Hsame | (Hread & _)]); [| discriminate].
      rewrite <- Hsame. exact Hq.
    + destruct Hcase as [[-> _] | (fr & _ & [=] & _)].
      simpl in Hp. cbn [delivered].
      destruct (Stream_ReadFrame s) as [[s0 [fr e]] | |] eqn:Hr; simpl in Hp;
        try discriminate.
      injection Hp as ->. simpl. rewrite Hd. simpl.
      apply Stream_ReadFrame_Done in Hr as (_ & _ & _ & _ & _ & _ & _ & Hfr).
      destruct fr as [f |].
      * exists (f :: got1). split; [reflexivity |].
        destruct Hfr as [-> _]. simpl. rewrite Hq. reflexivity.
      * exists got1. split; [reflexivity |].
        destruct Hfr as (Hq0 & Hq1 & _). rewrite Hq0. rewrite Hq1 in Hq. exact Hq.
    + exists got1. cbn [delivered]. rewrite Hp. simpl. rewrite Hd. simpl. split; [reflexivity |].
      destruct Hcase as [[-> Hskip] | (fr & _ & [=] & _)].
      destruct Hskip as (_ & _ & _ & [Hsame | (Hread & _)]); [| discriminate].
      rewrite <- Hsame. exact Hq.
Qed.

(** In a run, the counter of a half moves by one for every frame [history]
    lists for that half. *)
Lemma history_counter (h : half) (actions : list action) :
  ∀ (s s' : Stream) (frames : list Frame) (c : N),
    nFrames (getHalf h s) = uint32 c →
    history rangeOrder h actions s = Done (s', frames) →
    nFrames (getHalf h s') = uint32 (c + N.of_nat (length frames)).
Proof.
  induction actions as [| a actions IH]; intros s s' frames c Hc Hrun.
  - injection Hrun as <- <-. simpl. rewrite N.add_0_r. exact Hc.
  - apply history_step in Hrun as (s1 & frames1 & Hp & Hrest & Hcase).
    destruct Hcase as [[-> Hskip] | (f & -> & _ & Htake)].
    + destruct Hskip as (Hn & _). apply (IH s1 s' frames1 c); [congruence | assumption].
    + destruct Htake as (_ & _ & _ & _ & Hn & _).
      replace (c + N.of_nat (length (f :: frames1)))
        with ((c + 1) + N.of_nat (length frames1)) by (simpl length; lia).
      apply (IH s1 s' frames1 (c + 1)); [| assumption].
      rewrite Hn, Hc. apply uint32_succ.
Qed.

(** The frames [history] lists for a half are the frames that went into
    its queue: with what the queue held at the start they make up what was
    read from the half and what the queue holds at the end. *)
Lemma history_queue (h : half) (actions : list action) :
  ∀ (s s' : Stream) (frames : list Frame),
    history rangeOrder h actions s = Done (s', frames) →
    ∃ got, delivered rangeOrder actions s = Done (s', got)
           ∧ queue h s ++ frames = readFrom h got ++ queue h s'.
Proof.
  induction actions as [| a actions IH]; intros s s' frames Hrun.
  - injection Hrun as <- <-. exists []. rewrite app_nil_r. destruct h; auto.
  - apply history_step in Hrun as (s1 & frames1 & Hp & Hrest & Hcase).
    destruct (IH s1 s' frames1 Hrest) as (got1 & Hd & Hq).
    assert (Hwrite : a ≠ Read →
              delivered rangeOrder (a :: actions) s = Done (s', got1)
              ∧ queue h s ++ frames = readFrom h got1 ++ queue h s').
    { intros Hnr. split.
      - cbn [delivered].
        destruct a; try (exfalso; apply Hnr; reflexivity);
          rewrite Hp; simpl; rewrite Hd; reflexivity.
      - destruct Hcase as [[-> Hskip] | (fr & -> & _ & Htake)].
        + destruct Hskip as (_ & _ & _ & [Hsame | (Hread & _)]); [| contradiction].
          rewrite <- Hsame. exact Hq.
        + destruct Htake as (_ & _ & _ & Hqs & _). rewrite Hqs, <- app_assoc in Hq. exact Hq. }
    destruct a as [f | f | |]; try (exists got1; apply Hwrite; discriminate).
    clear Hwrite. destruct Hcase as [[-> Hskip] | (fr & _ & [=] & _)].
    simpl in Hp. cbn [delivered].
    destruct (Stream_ReadFrame s) as [[s0 [fr e]] | |] eqn:Hr; simpl in Hp; try discriminate.
    injection Hp as ->. simpl. rewrite Hd. simpl.
    apply Stream_ReadFrame_Done in Hr as (Hout & _ & _ & _ & _ & _ & _ & Hfr).
    destruct h.
    + destruct fr as [f |].
      * exists (f :: got1). split; [reflexivity |].
        destruct Hfr as [-> _]. simpl. simpl in Hq. rewrite Hq. reflexivity.
      * exists got1. split; [reflexivity |].
        destruct Hfr as (Hq0 & Hq1 & _). rewrite Hq0. rewrite Hq1 in Hq. exact Hq.
    + eexists. split; [reflexivity |].
      unfold queue in *. simpl in *. rewrite <- Hout. exact Hq.
Qed.

(** A run that returns has a history. *)
Lemma delivered_history (h : half) (actions : list action) :
  ∀ (s s' : Stream) (got : list Frame),
    delivered rangeOrder actions s = Done (s', got) →
    ∃ frames, history rangeOrder h actions s = Done (s', frames).
Proof.
  induction actions as [| a actions IH]; intros s s' got Hd.
  - injection Hd as <- <-. exists []. reflexivity.
  - cbn [delivered] in Hd.
    assert (Hstep : ∃ s1 got1, perform rangeOrder a s = Done s1
                               ∧ delivered rangeOrder actions s1 = Done (s', got1)).
    { destruct a as [f | f | |].
      1, 2, 4: destruct (perform rangeOrder _ s) as [s1 | |] eqn:Hp; simpl in Hd;
        try discriminate;
        destruct (delivered rangeOrder actions s1) as [[s2 got1] | |] eqn:Hd1;
        simpl in Hd; try discriminate;
        injection Hd as <- _; eauto.
      destruct (Stream_ReadFrame s) as [[s1 [fr e]] | |] eqn:Hr; simpl in Hd;
        try discriminate.
      destruct (delivered rangeOrder actions s1) as [[s2 got1] | |] eqn:Hd1;
        simpl in Hd; try discriminate.
      injection Hd as <- _. exists s1, got1.
      split; [simpl; rewrite Hr; reflexivity | exact Hd1]. }
    destruct Hstep as (s1 & got1 & Hp & Hd1).
    destruct (IH s1 s' got1 Hd1) as (frames1 & Hh).
    cbn [history]. rewrite Hp. simpl. rewrite Hh. simpl. eauto.
Qed.

(** X3.  The counter of a half counts the frames that went into its queue,
    modulo 2^32.  In a run that returns, started with the counter of half
    [h] at [c] modulo 2^32, let [got] be the frames the reads returned.
    There is a list [taken] of frames such that the queue of [h] at the
    start followed by [taken] is what was read from [h] followed by the
    queue of [h] at the end, so [taken] holds, in order, the frames that
    entered the queue during the run; [taken] is the list [history] gives
    for [h]; and the counter ends at [c + length taken] modulo 2^32.  A
    frame that was dropped or refused, a frame of the other half, a read
    and a close neither enter the queue nor move the counter. *)
Theorem counter_counts_admissions (h : half) (actions : list action) :
  ∀ (s s' : Stream) (got : list Frame) (c : N),
    nFrames (getHalf h s) = uint32 c →
    delivered rangeOrder actions s = Done (s', got) →
    ∃ taken,
      queue h s ++ taken = readFrom h got ++ queue h s'
      ∧ history rangeOrder h actions s = Done (s', taken)
      ∧ nFrames (getHalf h s') = uint32 (c + N.of_nat (length taken)).
Proof.
  intros s s' got c Hc Hd.
  destruct (delivered_history h actions s s' got Hd) as (taken & Hh).
  exists taken.
  destruct (history_queue h actions s s' taken Hh) as (got' & Hd' & Hq).
  rewrite Hd in Hd'. injection Hd' as <-.
  split; [exact Hq | split; [exact Hh |]].
  apply (history_counter h actions s s' taken c Hc Hh).
Qed.

(** C3, at the input where the code departs from it.  A stream of the
    peer receives an OpenStream, then 2^32 - 1 Data frames, then an
    OpenStream again, its owner reading every frame as it arrives.  The
    counter of the receive half is a [uint32] that nothing guards: after
    the 2^32 frames it has admitted it is 0 again, and the test for a first
    frame passes a second time.  The receive half admits every frame of
    the list, the second OpenStream as the first, and the reads hand them
    all to the owner: this direction of the stream has carried two opening
    frames. *)
Theorem C3_counter_wrap_admits_second_opening (sid id : N) (data : list Byte.byte) :
  let syn := SynStreamFrame {| Flags := 0 |} id None in
  let frames := syn :: repeat (DataFrame id 0 data) (N.to_nat 4294967295) ++ [syn] in
  opening syn = true
  ∧ history rangeOrder InputHalf (relayed frames) (NewStream sid false)
    = Done (idleStream sid (Some ∅) 1 NewHalfStream false, frames)
  ∧ delivered rangeOrder (relayed frames) (NewStream sid false)
    = Done (idleStream sid (Some ∅) 1 NewHalfStream false, frames).
Proof.
  intros syn frames.
  pose proof (wrap_admits_second_opening rangeOrder sid id data (N.to_nat 4294967295)
                (N2Nat.id 4294967295)) as Hh.
  fold syn in Hh. fold frames in Hh.
  split; [reflexivity | split; [exact Hh |]].
  destruct (history_queue InputHalf _ _ _ _ Hh) as (got & Hd & Hq).
  change (queue InputHalf (NewStream sid false)) with (@nil Frame) in Hq.
  change (queue InputHalf (idleStream sid (Some ∅) 1 NewHalfStream false))
    with (@nil Frame) in Hq.
  rewrite app_nil_l, app_nil_r in Hq. unfold readFrom in Hq. subst got. exact Hd.
Qed.

Lemma legalOn_facts (h : half) (n : N) (loc : bool) (frame : Frame) :
  legalOn h n loc frame = true →
  sessionLevel frame = false
  ∧ (h = OutputHalf → isRst frame = false)
  ∧ (∀ cf id hd, frame = SynStreamFrame cf id hd →
       loc = match h with InputHalf => false | OutputHalf => true end)
  ∧ (∀ cf id hd, frame = SynReplyFrame cf id hd →
       loc = match h with InputHalf => true | OutputHalf => false end)
  ∧ (n = 0 → opening frame = true ∨ isRst frame = true).
Proof.
  destruct h, frame; simpl; try discriminate; intros Hl;
    repeat split; try discriminate; try (intros; subst; simpl in *; auto; fail);
    try (intros cf id hd [= <- <- <-]);
    repeat match goal with
           | H : _ && _ = true |- _ => apply andb_true_iff in H as [? ?]
           | H : negb _ = true |- _ => apply negb_true_iff in H
           end; auto;
    try (intros ->; discriminate).
Qed.

(** X4.  In every run from a new stream, whatever is offered: no half ever
    admits a session-level frame (Noop, Settings, Ping, GoAway); the send
    half never admits a Reset; an OpenStream is admitted only by the receive
    half of a stream of the peer or the send half of a local stream, a
    Reply only the other way round; and the first frame a half admits is an
    opening frame or a Reset, never a Headers or a Data frame. *)
Theorem admitted_frames_are_legal (h : half) (actions : list action) (id : N) (loc : bool)
    (s' : Stream) (frames : list Frame) (i : nat) (frame : Frame) :
  history rangeOrder h actions (NewStream id loc) = Done (s', frames) →
  frames !! i = Some frame →
  sessionLevel frame = false
  ∧ (h = OutputHalf → isRst frame = false)
  ∧ (∀ cf sid hd, frame = SynStreamFrame cf sid hd →
       loc = match h with InputHalf => false | OutputHalf => true end)
  ∧ (∀ cf sid hd, frame = SynReplyFrame cf sid hd →
       loc = match h with InputHalf => true | OutputHalf => false end)
  ∧ (i = 0%nat → opening frame = true ∨ isRst frame = true).
Proof.
  assert (Hgen : ∀ actions s s' frames i frame,
             local s = loc →
             history rangeOrder h actions s = Done (s', frames) →
             frames !! i = Some frame →
             ∃ n, legalOn h n loc frame = true
                  ∧ (i = 0%nat → n = nFrames (getHalf h s))).
  { clear. intros actions.
    induction actions as [| a actions IH]; intros s s' frames i frame Hloc Hrun Hi.
    - injection Hrun as _ <-. rewrite lookup_nil in Hi. discriminate.
    - apply history_step in Hrun as (s1 & frames1 & Hp & Hrest & Hcase).
      assert (Hloc1 : local s1 = loc) by (rewrite (perform_local _ _ _ _ Hp); exact Hloc).
      destruct Hcase as [[-> Hskip] | (f & -> & _ & Htake)].
      + destruct (IH s1 s' frames1 i frame Hloc1 Hrest Hi) as (n & Hl & Hn).
        exists n. split; [exact Hl |]. intros Hi0. rewrite (Hn Hi0).
        destruct Hskip as (Hsame & _). exact Hsame.
      + destruct i as [| i].
        * injection Hi as <-. destruct Htake as (_ & Hl & _). rewrite Hloc in Hl.
          exists (nFrames (getHalf h s)). auto.
        * destruct (IH s1 s' frames1 i frame Hloc1 Hrest Hi) as (n & Hl & _).
          exists n. split; [exact Hl | discriminate]. }
  intros Hrun Hi.
  destruct (Hgen actions (NewStream id loc) s' frames i frame eq_refl Hrun Hi) as (n & Hl & Hn).
  destruct (legalOn_facts h n loc frame Hl) as (H1 & H2 & H3 & H4 & H5).
  repeat split; try assumption.
  intros Hi0. apply H5. rewrite (Hn Hi0). destruct h; reflexivity.
Qed.

Lemma history_on_closed (h : half) (actions : list action) :
  ∀ (s s' : Stream) (frames : list Frame),
    HalfStream_Closed h s = true →
    history rangeOrder h actions s = Done (s', frames) →
    frames = [] ∧ HalfStream_Closed h s' = true.
Proof.
  induction actions as [| a actions IH]; intros s s' frames Hc Hrun.
  - injection Hrun as <- <-. auto.
  - apply history_step in Hrun as (s1 & frames1 & Hp & Hrest & Hcase).
    destruct Hcase as [[-> Hskip] | (f & -> & _ & Htake)].
    + destruct Hskip as (_ & _ & Hstay & _). apply (IH s1 s' frames1 (Hstay Hc) Hrest).
    + destruct Htake as (Hopen & _). congruence.
Qed.

(** X5.  A frame with the fin flag, or a Reset, is the last frame its half
    admits: nothing offered later in the run gets in, and the half is
    closed at the end of the run. *)
Theorem closing_frame_is_last (h : half) (actions : list action) :
  ∀ (s s' : Stream) (frames : list Frame) (i : nat) (frame : Frame),
    history rangeOrder h actions s = Done (s', frames) →
    frames !! i = Some frame →
    GetFinFlag frame || isRst frame = true →
    length frames = S i ∧ HalfStream_Closed h s' = true.
Proof.
  induction actions as [| a actions IH]; intros s s' frames i frame Hrun Hi Hfin.
  - injection Hrun as _ <-. rewrite lookup_nil in Hi. discriminate.
  - apply history_step in Hrun as (s1 & frames1 & Hp & Hrest & Hcase).
    destruct Hcase as [[-> Hskip] | (f & -> & _ & Htake)].
    + apply (IH s1 s' frames1 i frame Hrest Hi Hfin).
    + destruct i as [| i].
      * injection Hi as ->. destruct Htake as (_ & _ & _ & _ & _ & Hcl & _).
        destruct (history_on_closed h actions s1 s' frames1 (Hcl Hfin) Hrest) as [-> Hc'].
        auto.
      * destruct (IH s1 s' frames1 i frame Hrest Hi Hfin) as [Hlen Hc'].
        simpl. rewrite Hlen. auto.
Qed.

Lemma perform_headers (h : half) (a : action) (frame : Frame) (s s1 : Stream) :
  perform rangeOrder a s = Done s1 →
  offered a = Some (h, frame) →
  takes h frame s s1 →
  match GetHeaders frame with
  | Some newHeaders =>
      UpdateHeaders rangeOrder (Headers (getHalf h s)) newHeaders
      = Done (Headers (getHalf h s1))
  | None => Headers (getHalf h s1) = Headers (getHalf h s)
  end.
Proof.
  intros Hp Hoff Htake.
  destruct (perform_offered rangeOrder a h frame s s1 Hoff Hp) as [-> | (_ & _ & Hw)].
  - destruct Htake as (_ & _ & _ & _ & Hn & _).
    symmetry in Hn. apply uint32_succ_ne in Hn. contradiction.
  - apply HalfStream_WriteFrame_Done in Hw as (_ & _ & _ & _ & _ & _ & Hh & _). exact Hh.
Qed.

(** X13.  The headers a half has accumulated are the merge, in the order
    of admission, of the header maps of the frames it admitted: in a run in
    which the half admits [frames], folding [UpdateHeaders] over the header
    maps of [frames] from the headers the half started with returns the
    headers it ends with.  Frames without headers (Data, Reset), frames
    that were dropped or refused, reads and closes contribute nothing. *)
Theorem headers_are_the_merge (h : half) (actions : list action) :
  ∀ (s s' : Stream) (frames : list Frame),
    history rangeOrder h actions s = Done (s', frames) →
    foldlM (UpdateHeaders rangeOrder) (Headers (getHalf h s)) (omap GetHeaders frames)
    = Done (Headers (getHalf h s')).
Proof.
  induction actions as [| a actions IH]; intros s s' frames Hrun.
  - injection Hrun as <- <-. reflexivity.
  - apply history_step in Hrun as (s1 & frames1 & Hp & Hrest & Hcase).
    specialize (IH s1 s' frames1 Hrest).
    destruct Hcase as [[-> Hskip] | (f & -> & Hoff & Htake)].
    + destruct Hskip as (_ & Hh & _). rewrite <- Hh. exact IH.
    + pose proof (perform_headers h a f s s1 Hp Hoff Htake) as Hh.
      simpl. destruct (GetHeaders f) as [newHeaders |]; simpl.
      * rewrite Hh. simpl. exact IH.
      * rewrite <- Hh. exact IH.
Qed.

End RunFacts.

(** ** Single calls *)

Section CallFacts.

Variable rangeOrder : gmap string (list string) → list (string * list string).

Lemma Stream_eq (s s' : Stream) :
  Id s' = Id s → local s' = local s → Input s' = Input s → Output s' = Output s → s' = s.
Proof. destruct s, s'; simpl; intros -> -> -> ->; reflexivity. Qed.

(** X6.  [Stream.Close] on a stream that satisfies the invariant returns
    and leaves both halves closed; it keeps every queued frame, both
    counters and both header maps; a half that was closed keeps the error
    it had recorded, a half that was open records [io.EOF]; a second
    [Close] changes nothing. *)
Theorem Close_closes_and_keeps (s : Stream) :
  wfStream s →
  ∃ s', Stream_Close s = Done s'
        ∧ wfStream s'
        ∧ HalfStream_Closed InputHalf s' = true ∧ HalfStream_Closed OutputHalf s' = true
        ∧ Id s' = Id s ∧ local s' = local s
        ∧ (∀ h, queue h s' = queue h s
                ∧ nFrames (getHalf h s') = nFrames (getHalf h s)
                ∧ Headers (getHalf h s') = Headers (getHalf h s)
                ∧ (HalfStream_Closed h s = true → getHalf h s' = getHalf h s)
                ∧ (HalfStream_Closed h s = false →
                     err (framer (getHalf h s')) = Some EOF))
        ∧ Stream_Close s' = Done s'.
Proof.
  intros Hwf. destruct (Stream_Close_wf s Hwf) as (s' & Hc & Hwf').
  exists s'. split; [exact Hc |]. split; [exact Hwf' |].
  pose proof (Stream_Close_Done _ _ Hc) as (Hci & Hco & Hid & Hloc & Hall).
  repeat split; try assumption; try apply Hall.
  destruct (Stream_Close_wf s' Hwf') as (s2 & Hc2 & _). rewrite Hc2. f_equal.
  apply Stream_Close_Done in Hc2 as (_ & _ & Hid2 & Hloc2 & Hall2).
  apply Stream_eq; try assumption.
  - destruct (Hall2 InputHalf) as (_ & _ & _ & Hsame & _). apply Hsame. exact Hci.
  - destruct (Hall2 OutputHalf) as (_ & _ & _ & Hsame & _). apply Hsame. exact Hco.
Qed.





(** X12.  A Reset that arrives on an open receive half with room, on a
    stream that satisfies the invariant, is admitted whatever the state of
    the stream: it is queued for the reader, both halves are closed, the
    send queue keeps what it held; in the state this leaves, every frame
    handed to [Stream.WriteFrame] is answered with an error and every
    received frame is dropped, the stream staying as it is. *)
Theorem Reset_ends_the_stream (cf : ControlFrameHeader) (id : N) (status : Z) (s : Stream) :
  wfStream s → HalfStream_Closed InputHalf s = false → hasRoom InputHalf s →
  ∃ s', StreamInput_WriteFrame rangeOrder (RstStreamFrame cf id status) s = Done (s', None)
        ∧ queue InputHalf s' = queue InputHalf s ++ [RstStreamFrame cf id status]
        ∧ queue OutputHalf s' = queue OutputHalf s
        ∧ HalfStream_Closed InputHalf s' = true
        ∧ HalfStream_Closed OutputHalf s' = true
        ∧ (∀ frame, ∃ e, Stream_WriteFrame rangeOrder frame s' = Done (s', Some e))
        ∧ (∀ frame, StreamInput_WriteFrame rangeOrder frame s' = Done (s', None)).
Proof.
  intros Hwf Hopen Hroom.
  rewrite StreamInput_WriteFrame_open by assumption. simpl.
  destruct (HalfStream_WriteFrame_open rangeOrder InputHalf (RstStreamFrame cf id status)
              s Hwf Hopen Hroom) as (s' & Hw & _).
  exists s'. split; [exact Hw |].
  pose proof (HalfStream_WriteFrame_other _ _ _ _ _ _ Hw) as (Hqo & _).
  apply HalfStream_WriteFrame_Done in Hw as (Hq & _ & _ & Hrst & _).
  destruct (Hrst eq_refl) as [Hci Hco].
  repeat split; try assumption.
  - intros frame. apply StreamOutput_WriteFrame_closed. exact Hco.
  - intros frame. apply StreamInput_WriteFrame_closed. exact Hci.
Qed.

(** ** The dummy handler *)

(** A read with a frame buffered returns the oldest frame and removes only
    it. *)
Lemma Stream_ReadFrame_head (s : Stream) (frame : Frame) (rest : list Frame) :
  queue InputHalf s = frame :: rest →
  ∃ s1, Stream_ReadFrame s = Done (s1, (Some frame, None))
        ∧ queue InputHalf s1 = rest
        ∧ Output s1 = Output s ∧ Id s1 = Id s ∧ local s1 = local s
        ∧ nFrames (Input s1) = nFrames (Input s)
        ∧ Headers (Input s1) = Headers (Input s)
        ∧ err (framer (Input s1)) = err (framer (Input s))
        ∧ closed (ch (framer (Input s1))) = closed (ch (framer (Input s))).
Proof.
  unfold queue, Stream_ReadFrame, ChanFramer_ReadFrame, chan_recv. simpl.
  intros ->. simpl. eexists. split; [reflexivity |]. simpl. auto 10.
Qed.

(** X9.  [DummyHandler.ServeSPDY] reads the receive queue empty.  When the
    receive half is closed (an error recorded, the channel closed) it then
    returns, after one more read than there were frames; everything but the
    queue is as before.  When the receive half is open it does not return:
    after the buffered frames the next read waits. *)
Theorem DummyHandler_drains (fuel : nat) :
  ∀ s : Stream,
    (length (queue InputHalf s) < fuel)%nat →
    (HalfStream_Closed InputHalf s = true → closed (ch (framer (Input s))) = true →
       ∃ s', DummyHandler_ServeSPDY fuel s = Some (Done s')
             ∧ queue InputHalf s' = []
             ∧ Output s' = Output s ∧ Id s' = Id s ∧ local s' = local s
             ∧ nFrames (Input s') = nFrames (Input s)
             ∧ Headers (Input s') = Headers (Input s)
             ∧ err (framer (Input s')) = err (framer (Input s)))
    ∧ (closed (ch (framer (Input s))) = false →
         DummyHandler_ServeSPDY fuel s = Some Blocked).
Proof.
  induction fuel as [| fuel IH]; intros s Hfuel; [lia |].
  destruct (queue InputHalf s) as [| frame rest] eqn:Hq.
  - split.
    + intros Hc Hch. exists s. simpl.
      unfold Stream_ReadFrame. unfold queue in Hq. simpl in Hq.
      rewrite ChanFramer_ReadFrame_drained by assumption. simpl.
      unfold HalfStream_Closed, ChanFramer_Closed in Hc. simpl in Hc.
      destruct (err (framer (Input s))) as [e |] eqn:He; [| discriminate].
      assert (Hs : {| Id := Id s;
                      Input := {| framer := framer (Input s); Headers := Headers (Input s);
                                  nFrames := nFrames (Input s) |};
                      Output := Output s; local := local s |} = s)
        by (destruct s as [i [f hd n] o l]; reflexivity).
      rewrite Hs. unfold queue. simpl. auto 10.
    + intros Hch. simpl. unfold Stream_ReadFrame, ChanFramer_ReadFrame, chan_recv.
      unfold queue in Hq. simpl in Hq. rewrite Hq, Hch. reflexivity.
  - destruct (Stream_ReadFrame_head s frame rest Hq)
      as (s1 & Hr & Hq1 & Ho & Hi & Hl & Hn & Hh & He & Hc).
    simpl in Hfuel.
    destruct (IH s1 ltac:(rewrite Hq1; lia)) as [IHc IHo].
    split.
    + intros Hcl Hch. simpl. rewrite Hr.
      destruct IHc as (s' & Hrun & Hrest).
      * unfold HalfStream_Closed, ChanFramer_Closed in *. simpl in *. rewrite He. exact Hcl.
      * rewrite Hc. exact Hch.
      * exists s'. split; [exact Hrun |].
        destruct Hrest as (? & ? & ? & ? & ? & ? & ?). repeat split; congruence.
    + intros Hch. simpl. rewrite Hr. apply IHo. rewrite Hc. exact Hch.
Qed.

(** ** The relay between two streams *)

Lemma reads_queue (frames : list Frame) :
  ∀ (b : Stream) (rest : list Frame),
    queue InputHalf b = frames ++ rest →
    ∃ b1, reads Stream_ReadFrame b (Some <$> frames) b1
          ∧ queue InputHalf b1 = rest
          ∧ Output b1 = Output b
          ∧ nFrames (Input b1) = nFrames (Input b)
          ∧ Headers (Input b1) = Headers (Input b).
Proof.
  induction frames as [| frame frames IH]; intros b rest Hq.
  - exists b. split; [constructor | auto].
  - destruct (Stream_ReadFrame_head b frame (frames ++ rest) Hq)
      as (b0 & Hr & Hq0 & Ho & _ & _ & Hn & Hh & _).
    destruct (IH b0 rest Hq0) as (b1 & Hreads & Hq1 & Ho1 & Hn1 & Hh1).
    exists b1. split; [| repeat split; congruence].
    simpl. econstructor; [exact Hr | exact Hreads].
Qed.

(** Frames the send validator accepted one after the other are at the end
    of the send queue, in that order; the receive half was not touched. *)
Lemma writes_queue (frames : list Frame) :
  ∀ a a1 : Stream,
    writes (Stream_WriteFrame_value rangeOrder) a (Some <$> frames) a1 →
    queue OutputHalf a1 = queue OutputHalf a ++ frames ∧ Input a1 = Input a.
Proof.
  induction frames as [| frame frames IH]; intros a a1 Hw; inversion Hw; subst.
  - rewrite app_nil_r. auto.
  - match goal with
    | H : Stream_WriteFrame_value _ _ _ = _ |- _ => rename H into Hone
    end.
    match goal with
    | H : writes _ _ _ _ |- _ => apply IH in H as [Hq Hi]
    end.
    simpl in Hone. unfold Stream_WriteFrame in Hone.
    destruct (StreamOutput_WriteFrame_cases _ _ _ _ _ Hone)
      as [[_ Hne] | (_ & Hl & _ & Hw')]; [congruence |].
    assert (Hrst : isRst frame = false) by (destruct frame; try discriminate; reflexivity).
    pose proof (HalfStream_WriteFrame_other _ _ _ _ _ _ Hw') as (_ & _ & _ & Hother & _).
    apply HalfStream_WriteFrame_Done in Hw' as (Hq' & _).
    rewrite Hq, Hq', <- app_assoc. split; [reflexivity |].
    rewrite Hi. apply (Hother Hrst).
Qed.

(** X10.  [Copy] from one stream into another does not relay a Reset.
    When the frames queued in [b] before a Reset are accepted by the send
    validator of [a], [Copy(a, b)] forwards them, in order, and at the
    Reset returns an error: the send queue of [a] has gained the frames
    before the Reset and nothing else, its receive half is untouched, and
    the frames queued in [b] behind the Reset stay unread. *)
Theorem Copy_does_not_relay_a_Reset (a a1 b : Stream) (pre rest : list Frame)
    (cf : ControlFrameHeader) (id : N) (status : Z) (fuel : nat) :
  queue InputHalf b = pre ++ RstStreamFrame cf id status :: rest →
  writes (Stream_WriteFrame_value rangeOrder) a (Some <$> pre) a1 →
  (length pre < fuel)%nat →
  ∃ b' e, debugCopy rangeOrder fuel (Some a) b = Some (Done (Some a1, b', Some e))
          ∧ queue InputHalf b' = rest
          ∧ queue OutputHalf a1 = queue OutputHalf a ++ pre
          ∧ Input a1 = Input a.
Proof.
  intros Hq Hwrites Hfuel.
  destruct (reads_queue (pre ++ [RstStreamFrame cf id status]) b rest) as (b' & Hreads & Hq' & _).
  { rewrite <- app_assoc. exact Hq. }
  assert (Hfail : ∃ e, Stream_WriteFrame_value rangeOrder (Some (RstStreamFrame cf id status)) a1
                       = Done (a1, Some e))
    by (apply StreamOutput_WriteFrame_default; reflexivity).
  destruct Hfail as [e Hfail].
  exists b', e. split.
  - unfold debugCopy. rewrite fmap_app in Hreads. simpl in Hreads.
    apply (Copy_write_error Stream_ReadFrame (Stream_WriteFrame_value rangeOrder)
             (Some <$> pre) (Some (RstStreamFrame cf id status)) a a1 a1 b b' e fuel);
      try assumption.
    rewrite length_fmap. exact Hfuel.
  - split; [exact Hq' |]. apply writes_queue. exact Hwrites.
Qed.

(** ** Edge cases of the header merge *)

Lemma foldlM_empty_values (entries : list (string * list string)) (headers : Header) :
  (∀ k vs, (k, vs) ∈ entries → vs = []) →
  foldlM (λ headers '(key, values),
            foldlM (λ headers value, Header_Add headers key value) headers values)
         headers entries = Done headers.
Proof.
  induction entries as [| [k vs] entries IH]; intros Hall; simpl; [reflexivity |].
  rewrite (Hall k vs) by left. simpl. apply IH.
  intros k' vs' Hin. apply (Hall k' vs'). right. exact Hin.
Qed.

Lemma foldlM_nil_map_panics (entries : list (string * list string)) :
  (∃ k v vs, (k, v :: vs) ∈ entries) →
  foldlM (λ headers '(key, values),
            foldlM (λ headers value, Header_Add headers key value) headers values)
         None entries = Panicked.
Proof.
  induction entries as [| [k0 vs0] entries IH]; intros (k & v & vs & Hin).
  - inversion Hin.
  - simpl. destruct vs0 as [| v0 vs0]; simpl; [| reflexivity].
    apply IH. apply elem_of_cons in Hin as [[=] | Hin]. eauto.
Qed.

(** X11.  Whatever the iteration order: merging the nil map, the empty map
    or a map whose keys all have empty value lists changes nothing, adds no
    key, and does not panic, even into the nil map; merging a map that
    carries at least one value into the nil map panics. *)
Theorem UpdateHeaders_edges :
  (∀ m, rangeOrder m ≡ₚ map_to_list m) →
  (∀ headers, UpdateHeaders rangeOrder headers None = Done headers)
  ∧ (∀ headers, UpdateHeaders rangeOrder headers (Some ∅) = Done headers)
  ∧ (∀ headers (m : gmap string (list string)),
       (∀ k vs, m !! k = Some vs → vs = []) →
       UpdateHeaders rangeOrder headers (Some m) = Done headers)
  ∧ (∀ (m : gmap string (list string)) k v vs,
       m !! k = Some (v :: vs) →
       UpdateHeaders rangeOrder None (Some m) = Panicked).
Proof.
  intros Hperm.
  assert (Hempty : ∀ headers (m : gmap string (list string)),
             (∀ k vs, m !! k = Some vs → vs = []) →
             UpdateHeaders rangeOrder headers (Some m) = Done headers).
  { intros headers m Hall. unfold UpdateHeaders. simpl.
    apply foldlM_empty_values. intros k vs Hin.
    rewrite (Hperm m) in Hin. apply elem_of_map_to_list in Hin. eauto. }
  split; [reflexivity |]. split; [| split; [exact Hempty |]].
  - intros headers. apply Hempty. intros k vs Hk. rewrite lookup_empty in Hk. discriminate.
  - intros m k v vs Hk. unfold UpdateHeaders. simpl.
    apply foldlM_nil_map_panics. exists k, v, vs.
    rewrite (Hperm m). apply elem_of_map_to_list. exact Hk.
Qed.

End CallFacts.

(** ** The further statements at concrete inputs *)

Lemma NewStream_bounded (id : N) (loc : bool) : bounded (NewStream id loc).
Proof. split; apply Nat.leb_le; reflexivity. Defined.

(** A stream of the peer receives an OpenStream and a Data frame and its
    owner reads once. *)
Lemma run_keeps_invariant_witness :
  ∃ s' frames,
    history map_to_list InputHalf
      [Receive (SynStreamFrame {| Flags := 0 |} 1 None); Receive (DataFrame 1 0 []); Read]
      (NewStream 1 false) = Done (s', frames)
    ∧ wfStream s' ∧ bounded s'.
Proof.
  eexists. eexists. split; [vm_compute; reflexivity |].
  eapply (run_keeps_invariant map_to_list InputHalf
           [Receive (SynStreamFrame {| Flags := 0 |} 1 None); Receive (DataFrame 1 0 []); Read]
           (NewStream 1 false) _ _ (NewStream_wf 1 false) (NewStream_bounded 1 false)).
  vm_compute; reflexivity.
Defined.

(** The same run with a Ping in between, which the receive half drops. *)
Lemma reads_follow_admissions_witness :
  ∃ s' taken,
    history map_to_list InputHalf
      [Receive (SynStreamFrame {| Flags := 0 |} 1 None); Receive (PingFrame {| Flags := 0 |});
       Receive (DataFrame 1 0 []); Read]
      (NewStream 1 false) = Done (s', taken)
    ∧ ∃ got,
        delivered map_to_list
          [Receive (SynStreamFrame {| Flags := 0 |} 1 None); Receive (PingFrame {| Flags := 0 |});
           Receive (DataFrame 1 0 []); Read]
          (NewStream 1 false) = Done (s', got)
        ∧ queue InputHalf (NewStream 1 false) ++ taken = got ++ queue InputHalf s'.
Proof.
  eexists. eexists. split; [vm_compute; reflexivity |].
  eapply (reads_follow_admissions map_to_list
           [Receive (SynStreamFrame {| Flags := 0 |} 1 None); Receive (PingFrame {| Flags := 0 |});
            Receive (DataFrame 1 0 []); Read]
           (NewStream 1 false)).
  vm_compute; reflexivity.
Defined.

(** A local stream sends an OpenStream, is offered a Ping to send, and
    sends a Data frame; a stream of the peer receives an OpenStream and a
    Data frame and its owner reads once. *)
Lemma counter_counts_admissions_witness :
  (∃ s' got,
     delivered map_to_list
       [Send (SynStreamFrame {| Flags := 0 |} 1 None); Send (PingFrame {| Flags := 0 |});
        Send (DataFrame 1 0 [])]
       (NewStream 1 true) = Done (s', got)
     ∧ ∃ taken, queue OutputHalf (NewStream 1 true) ++ taken
                = readFrom OutputHalf got ++ queue OutputHalf s'
                ∧ length taken = 2%nat
                ∧ nFrames (getHalf OutputHalf s') = 2)
  ∧ ∃ s' got,
      delivered map_to_list
        [Receive (SynStreamFrame {| Flags := 0 |} 1 None); Receive (DataFrame 1 0 []); Read]
        (NewStream 1 false) = Done (s', got)
      ∧ ∃ taken, queue InputHalf (NewStream 1 false) ++ taken
                 = readFrom InputHalf got ++ queue InputHalf s'
                 ∧ length taken = 2%nat
                 ∧ nFrames (getHalf InputHalf s') = 2.
Proof.
  split.
  - eexists. eexists. split; [vm_compute; reflexivity |].
    edestruct (counter_counts_admissions map_to_list OutputHalf
                 [Send (SynStreamFrame {| Flags := 0 |} 1 None); Send (PingFrame {| Flags := 0 |});
                  Send (DataFrame 1 0 [])]
                 (NewStream 1 true)) as (taken & Hq & Hh & Hn).
    + exact (eq_refl : nFrames (getHalf OutputHalf (NewStream 1 true)) = uint32 0).
    + vm_compute; reflexivity.
    + exists taken. split; [exact Hq |].
      injection Hh as <-. split; [reflexivity | exact Hn].
  - eexists. eexists. split; [vm_compute; reflexivity |].
    edestruct (counter_counts_admissions map_to_list InputHalf
                 [Receive (SynStreamFrame {| Flags := 0 |} 1 None); Receive (DataFrame 1 0 []);
                  Read]
                 (NewStream 1 false)) as (taken & Hq & Hh & Hn).
    + exact (eq_refl : nFrames (getHalf InputHalf (NewStream 1 false)) = uint32 0).
    + vm_compute; reflexivity.
    + exists taken. split; [exact Hq |].
      injection Hh as <-. split; [reflexivity | exact Hn].
Defined.

(** The first frame the receive half of a stream of the peer admits. *)
Lemma admitted_frames_are_legal_witness :
  sessionLevel (SynStreamFrame {| Flags := 0 |} 1 None) = false
  ∧ (opening (SynStreamFrame {| Flags := 0 |} 1 None) = true
     ∨ isRst (SynStreamFrame {| Flags := 0 |} 1 None) = true).
Proof.
  destruct (admitted_frames_are_legal map_to_list InputHalf
              [Receive (PingFrame {| Flags := 0 |});
               Receive (SynStreamFrame {| Flags := 0 |} 1 None)]
              1 false
              {| Id := 1;
                 Input := {| framer := {| ch := Chan [SynStreamFrame {| Flags := 0 |} 1 None] false;
                                          err := None |};
                             Headers := Some ∅;
                             nFrames := 1 |};
                 Output := NewHalfStream;
                 local := false |}
              [SynStreamFrame {| Flags := 0 |} 1 None] 0%nat
              (SynStreamFrame {| Flags := 0 |} 1 None))
    as (Hsession & _ & _ & _ & Hfirst).
  - vm_compute; reflexivity.
  - reflexivity.
  - split; [exact Hsession | exact (Hfirst eq_refl)].
Defined.

(** A Data frame with the fin flag, and one offered after it. *)
Lemma closing_frame_is_last_witness :
  ∃ s' frames,
    history map_to_list InputHalf
      [Receive (SynStreamFrame {| Flags := 0 |} 1 None); Receive (DataFrame 1 1 []);
       Receive (DataFrame 1 0 [])]
      (NewStream 1 false) = Done (s', frames)
    ∧ length frames = 2%nat ∧ HalfStream_Closed InputHalf s' = true.
Proof.
  eexists. eexists. split; [vm_compute; reflexivity |].
  eapply (closing_frame_is_last map_to_list InputHalf
           [Receive (SynStreamFrame {| Flags := 0 |} 1 None); Receive (DataFrame 1 1 []);
            Receive (DataFrame 1 0 [])]
           (NewStream 1 false) _ _ 1%nat (DataFrame 1 1 [])).
  - vm_compute; reflexivity.
  - reflexivity.
  - reflexivity.
Defined.

Lemma Close_closes_and_keeps_witness :
  ∃ s', Stream_Close (NewStream 1 false) = Done s'
        ∧ HalfStream_Closed InputHalf s' = true ∧ HalfStream_Closed OutputHalf s' = true
        ∧ Stream_Close s' = Done s'.
Proof.
  destruct (Close_closes_and_keeps (NewStream 1 false) (NewStream_wf 1 false))
    as (s' & Hclose & _ & Hin & Hout & _ & _ & _ & Hagain).
  exists s'. repeat split; assumption.
Defined.



Lemma Reset_ends_the_stream_witness :
  ∃ s', StreamInput_WriteFrame map_to_list (RstStreamFrame {| Flags := 0 |} 1 ProtocolError)
          (NewStream 1 false) = Done (s', None)
        ∧ HalfStream_Closed InputHalf s' = true
        ∧ HalfStream_Closed OutputHalf s' = true.
Proof.
  destruct (Reset_ends_the_stream map_to_list {| Flags := 0 |} 1 ProtocolError (NewStream 1 false)
              (NewStream_wf 1 false) eq_refl chanCap_pos)
    as (s' & Hw & _ & _ & Hin & Hout & _).
  exists s'. repeat split; assumption.
Defined.

(** The handler on a stream that received an OpenStream and a last Data
    frame, and on a fresh stream. *)
Lemma DummyHandler_drains_witness :
  (∃ s, feedInput map_to_list
          [SynStreamFrame {| Flags := 0 |} 1 None; DataFrame 1 1 []] (NewStream 1 false)
        = Done s
        ∧ ∃ s', DummyHandler_ServeSPDY 3 s = Some (Done s') ∧ queue InputHalf s' = [])
  ∧ DummyHandler_ServeSPDY 3 (NewStream 1 false) = Some Blocked.
Proof.
  split.
  - eexists. split; [vm_compute; reflexivity |].
    match goal with
    | |- ∃ s', DummyHandler_ServeSPDY _ ?s = _ ∧ _ =>
        destruct (DummyHandler_drains 3 s) as [Hdrain _]
    end.
    + apply Nat.ltb_lt. reflexivity.
    + destruct (Hdrain eq_refl eq_refl) as (s' & Hrun & Hq & _).
      exists s'. split; assumption.
  - destruct (DummyHandler_drains 3 (NewStream 1 false)) as [_ Hblock].
    + apply Nat.ltb_lt. reflexivity.
    + apply Hblock. reflexivity.
Defined.

(** A stream of the peer received an OpenStream, a Reset and nothing else;
    its frames are copied into a fresh local stream. *)
Lemma Copy_does_not_relay_a_Reset_witness :
  ∃ b, feedInput map_to_list
         [SynStreamFrame {| Flags := 0 |} 1 None;
          RstStreamFrame {| Flags := 0 |} 1 ProtocolError] (NewStream 1 false)
       = Done b
       ∧ ∃ a1 b' e, debugCopy map_to_list 2 (Some (NewStream 1 true)) b
                   = Some (Done (Some a1, b', Some e))
                   ∧ queue InputHalf b' = []
                   ∧ queue OutputHalf a1 = [SynStreamFrame {| Flags := 0 |} 1 None].
Proof.
  eexists. split; [vm_compute; reflexivity |].
  match goal with
  | |- ∃ a1 b' e, debugCopy _ _ _ ?b = _ ∧ _ =>
      destruct (Copy_does_not_relay_a_Reset map_to_list (NewStream 1 true)
                  {| Id := 1;
                     Input := NewHalfStream;
                     Output := {| framer := {| ch := Chan [SynStreamFrame {| Flags := 0 |} 1 None]
                                                       false;
                                               err := None |};
                                  Headers := Some ∅;
                                  nFrames := 1 |};
                     local := true |}
                  b [SynStreamFrame {| Flags := 0 |} 1 None] []
                  {| Flags := 0 |} 1 ProtocolError 2%nat)
        as (b' & e & Hcopy & Hrest & Hsent & _)
  end.
  - reflexivity.
  - econstructor; [vm_compute; reflexivity | constructor].
  - apply Nat.ltb_lt. reflexivity.
  - eexists. exists b', e. repeat split; eassumption.
Defined.

Lemma UpdateHeaders_edges_witness :
  UpdateHeaders map_to_list None (Some {["a" := []]}) = Done None
  ∧ UpdateHeaders map_to_list None (Some {["a" := ["1"]]}) = Panicked.
Proof.
  destruct (UpdateHeaders_edges map_to_list map_to_list_order) as (_ & _ & Hempty & Hpanic).
  split.
  - apply Hempty. intros k vs Hk.
    apply lookup_singleton_Some in Hk as [_ <-]. reflexivity.
  - apply (Hpanic _ "a" "1" []). apply lookup_singleton_eq.
Defined.

(** An OpenStream and a Headers frame that both carry the key "a", with a
    Data frame between them. *)
Lemma headers_are_the_merge_witness :
  ∃ s' frames,
    history map_to_list InputHalf
      [Receive (SynStreamFrame {| Flags := 0 |} 1 (Some {["a" := ["1"]]}));
       Receive (DataFrame 1 0 []);
       Receive (HeadersFrame {| Flags := 0 |} 1 (Some {["a" := ["2"]]}))]
      (NewStream 1 false) = Done (s', frames)
    ∧ foldlM (UpdateHeaders map_to_list) (Headers (getHalf InputHalf (NewStream 1 false)))
        (omap GetHeaders frames)
      = Done (Headers (getHalf InputHalf s'))
    ∧ headerGet (Headers (getHalf InputHalf s')) "A" = ["1"; "2"].
Proof.
  eexists. eexists. split; [vm_compute; reflexivity |]. split.
  - eapply (headers_are_the_merge map_to_list InputHalf
              [Receive (SynStreamFrame {| Flags := 0 |} 1 (Some {["a" := ["1"]]}));
               Receive (DataFrame 1 0 []);
               Receive (HeadersFrame {| Flags := 0 |} 1 (Some {["a" := ["2"]]}))]
              (NewStream 1 false)).
    vm_compute; reflexivity.
  - vm_compute; reflexivity.
Defined.
